(** * The 3x3 sliding puzzle: solvability test, Manhattan heuristic, A* solver

    A shallow embedding of the puzzle logic of [main.py] (the part above the
    GUI class) and, of the GUI class, of the move method, the layout of the
    board, the shuffling and the text of a state; the properties the
    specification states about them, and further properties of the code.

    Conventions.
    - A Python [int] is a [Z]; a list or tuple of ints is a [list Z].
    - A list position (the result of [list.index], the argument of
      [neighbors]) is a [nat]: the source only ever passes the result of
      [state.index(0)] to [neighbors], and every position it derives from it
      is guarded so that it stays non-negative.
    - A Python exception ([ValueError], [KeyError], [IndexError]) is [None]
      in an [option], or the outcome [Raised] of the solver.
    - A [dict] is a [gmap]; the [heapq] heap is the list of its items and
      [heappop] extracts the least item in Python's tuple order.
    - A [str] is the list of its characters, a character being a code point
      in 0..255 (an [ascii]); the character classes ([isspace], [isdigit],
      the digits [int] reads) are Python's on that range, and [int] has the
      interpreter's default limit of 4300 digits.
    - The two [while] loops of [astar_solve] run on fuel: the outcome
      [OutOfFuel] is not an outcome of the source, and the properties show
      that it does not occur once the fuel is [enough_fuel] of the budget.
    - A [QRect] is the tuple [(x, y, width, height)] of its constructor;
      the buttons of the tiles are represented by their geometry.
    - The numbers that [random.choice] draws are given from outside, one
      per iteration, and the properties hold for all of them.
    - The event loop of Qt (animations, timers, dialogs) is not part of the
      embedding: the methods of the GUI class are taken outside an
      animation and a playback. *)

From stdpp Require Import gmap list sorting strings.
From Stdlib Require Import ZArith Lia Ascii MSets.MSetPositive.
From Stdlib Require DecimalString.

Open Scope Z_scope.

(** ** Puzzle logic *)

Definition GOAL : list Z := [1; 2; 3; 4; 5; 6; 7; 8; 0].

(** [list.index(v)]: the first position holding [v], or [ValueError]. *)
Fixpoint index_of (v : Z) (l : list Z) : option nat :=
  match l with
  | [] => None
  | x :: rest => if decide (x = v) then Some O else S <$> index_of v rest
  end.

(** [GOAL_POS = {v: i for i, v in enumerate(GOAL)}]; [GOAL] has no repeated
    value, so the dictionary maps each value to its only position. A missing
    key is a [KeyError]. *)
Definition GOAL_POS (v : Z) : option nat := index_of v GOAL.

(** The double loop of [inversions] over [arr]: for each position, the
    number of later, smaller entries. *)
Fixpoint count_inversions (arr : list Z) : Z :=
  match arr with
  | [] => 0
  | x :: rest =>
      Z.of_nat (length (filter (λ y, y < x) rest)) + count_inversions rest
  end.

Definition inversions (state : list Z) : Z :=
  count_inversions (filter (λ x, x ≠ 0) state).

Definition is_solvable_3x3 (state : list Z) : bool :=
  inversions state mod 2 =? 0.

(** ** Text input *)

(** A [str] is the list of its characters; a character is a code point in
    0..255. The character classes are those of Python on that range. *)
Definition code_point (c : ascii) : Z := Z.of_N (N_of_ascii c).

(** [ch.isspace()], the characters that [strip] and [split] drop *)
Definition isspace (c : ascii) : bool :=
  let n := code_point c in
  ((9 <=? n) && (n <=? 13)) || ((28 <=? n) && (n <=? 32)) ||
  (n =? 133) || (n =? 160).

(** [ch.isdigit()]: the ten decimal digits, and the superscripts
    two, three and one *)
Definition isdigit (c : ascii) : bool :=
  let n := code_point c in
  ((48 <=? n) && (n <=? 57)) || (n =? 178) || (n =? 179) || (n =? 185).

(** The characters [int] reads as decimal digits. *)
Definition isdecimal (c : ascii) : bool :=
  let n := code_point c in (48 <=? n) && (n <=? 57).

Definition digit_value (c : ascii) : Z := code_point c - 48.

Fixpoint lstrip (t : list ascii) : list ascii :=
  match t with
  | [] => []
  | c :: rest => if isspace c then lstrip rest else t
  end.

Fixpoint rstrip (t : list ascii) : list ascii :=
  match t with
  | [] => []
  | c :: rest =>
      match rstrip rest with
      | [] => if isspace c then [] else [c]
      | rest' => c :: rest'
      end
  end.

(** [text.strip()] *)
Definition strip (t : list ascii) : list ascii := lstrip (rstrip t).

(** [t.replace(sep, " ")] for a one-character [sep] *)
Definition replace (sep : ascii) (t : list ascii) : list ascii :=
  (λ c, if decide (c = sep) then " "%char else c) <$> t.

(** Splitting at the characters of class [sep], dropping empty pieces;
    [cur] is the piece being read. *)
Fixpoint split_on (sep : ascii → bool) (t : list ascii) (cur : list ascii)
  : list (list ascii) :=
  match t with
  | [] => match cur with [] => [] | _ => [cur] end
  | c :: rest =>
      if sep c then
        match cur with
        | [] => split_on sep rest []
        | _ => cur :: split_on sep rest []
        end
      else split_on sep rest (cur ++ [c])
  end.

(** [t.split()] *)
Definition split (t : list ascii) : list (list ascii) := split_on isspace t [].

(** The digits of an [int] literal: decimal digits, with single underscores
    between them. *)
Fixpoint int_digits (acc : Z) (after_digit : bool) (p : list ascii)
  : option Z :=
  match p with
  | [] => if after_digit then Some acc else None
  | c :: rest =>
      if isdecimal c then int_digits (10 * acc + digit_value c) true rest
      else if decide (c = "_"%char) then
        if after_digit then int_digits acc false rest else None
      else None
  end.

(** The limit on the number of digits of a decimal string that [int]
    converts: the default of [sys.get_int_max_str_digits()], which the
    program does not change. *)
Definition int_max_str_digits : Z := 4300.

(** The digits [int] counts against the limit: the decimal digits of the
    string, leading zeros included; the sign and the underscores do not
    count. *)
Definition count_digits (p : list ascii) : Z :=
  Z.of_nat (length (filter (λ c, isdecimal c = true) p)).

(** [int(p)] for a string without whitespace; [None] is [ValueError], which
    [int] raises for a string that is not an integer literal and for one
    with more digits than the limit. *)
Definition py_int (p : list ascii) : option Z :=
  if int_max_str_digits <? count_digits p then None
  else
    match p with
    | c :: rest =>
        if decide (c = "+"%char) then int_digits 0 false rest
        else if decide (c = "-"%char) then Z.opp <$> int_digits 0 false rest
        else int_digits 0 false p
    | [] => None
    end.

Inductive parse_result : Type :=
  | Parsed (vals : list Z)
  | ParseNone
  | ParseRaised.

(** [sorted(vals) != list(range(9))] decides between [None] and [vals]. *)
Definition check_values (vals : list Z) : parse_result :=
  if decide (merge_sort Z.le vals = [0; 1; 2; 3; 4; 5; 6; 7; 8])
  then Parsed vals else ParseNone.

Definition parse_state (text : list ascii) : parse_result :=
  let t := strip text in
  match t with
  | [] => ParseNone
  | _ =>
      if forallb isdigit t && (length t =? 9)%nat then
        match mapM (λ ch, py_int [ch]) t with
        | Some vals => check_values vals
        | None => ParseRaised
        end
      else
        let t := replace ";"%char (replace ","%char t) in
        let parts := split t in
        if negb (length parts =? 9)%nat then ParseNone
        else
          match mapM py_int parts with
          | Some vals => check_values vals
          | None => ParseNone
          end
  end.

Definition str (s : string) : list ascii := String.list_ascii_of_string s.

Definition neighbors (index : nat) : list nat :=
  let r := (index / 3)%nat in
  let c := (index mod 3)%nat in
  (if (0 <? r)%nat then [(index - 3)%nat] else []) ++
  (if (r <? 2)%nat then [(index + 3)%nat] else []) ++
  (if (0 <? c)%nat then [(index - 1)%nat] else []) ++
  (if (c <? 2)%nat then [(index + 1)%nat] else []).

(** One summand of [manhattan]: the grid distance between cell [i] and the
    goal cell [gi]. *)
Definition grid_distance (i gi : nat) : Z :=
  Z.abs (Z.of_nat (i / 3) - Z.of_nat (gi / 3)) +
  Z.abs (Z.of_nat (i mod 3) - Z.of_nat (gi mod 3)).

(** The loop of [manhattan] from position [i] on, with the running sum. *)
Fixpoint manhattan_from (i : nat) (state : list Z) (dist : Z) : option Z :=
  match state with
  | [] => Some dist
  | v :: rest =>
      if decide (v = 0) then manhattan_from (S i) rest dist
      else gi ← GOAL_POS v;
           manhattan_from (S i) rest (dist + grid_distance i gi)
  end.

Definition manhattan (state : list Z) : option Z := manhattan_from 0 state 0.

(** [new_state[z], new_state[nb] = new_state[nb], new_state[z]]: both old
    values are read first (an [IndexError] when a position is out of range),
    then position [z] and position [nb] are written, in this order. *)
Definition swap_cells (state : list Z) (z nb : nat) : option (list Z) :=
  at_nb ← state !! nb;
  at_z ← state !! z;
  Some (<[nb := at_z]> (<[z := at_nb]> state)).

(** ** The move method of the GUI class

    [_apply_move_by_tile_value] on the current state, outside an animation:
    the new state, or [None] when the method leaves the state as it is (the
    tile is not next to the blank) or [index] raises. *)
Definition apply_move_by_tile_value (state : list Z) (tile_value : Z)
  : option (list Z) :=
  zero_idx ← index_of 0 state;
  tile_idx ← index_of tile_value state;
  if decide (tile_idx ∈ neighbors zero_idx)
  then swap_cells state zero_idx tile_idx
  else None.

(** Replaying a move list, one tile value after the other. *)
Fixpoint replay (state : list Z) (moves : list Z) : option (list Z) :=
  match moves with
  | [] => Some state
  | m :: rest => state' ← apply_move_by_tile_value state m; replay state' rest
  end.

(** ** The heap of the solver

    An item is the tuple [(f, g, state)]. Python compares tuples
    lexicographically, and so the state tuples inside them. *)
Definition entry : Type := Z * Z * list Z.

Fixpoint tuple_lt (a b : list Z) : bool :=
  match a, b with
  | [], [] => false
  | [], _ :: _ => true
  | _ :: _, [] => false
  | x :: a', y :: b' =>
      if x <? y then true else if y <? x then false else tuple_lt a' b'
  end.

Definition entry_lt (a b : entry) : bool :=
  let '(fa, ga, sa) := a in
  let '(fb, gb, sb) := b in
  if fa <? fb then true else if fb <? fa then false
  else if ga <? gb then true else if gb <? ga then false
  else tuple_lt sa sb.

Definition heappush (heap : list entry) (item : entry) : list entry :=
  item :: heap.

(** The least item of [x :: heap]. *)
Fixpoint heap_min (x : entry) (heap : list entry) : entry :=
  match heap with
  | [] => x
  | y :: rest => heap_min (if entry_lt y x then y else x) rest
  end.

Fixpoint remove_first (x : entry) (heap : list entry) : list entry :=
  match heap with
  | [] => []
  | y :: rest => if decide (y = x) then rest else y :: remove_first x rest
  end.

(** [heappop]: the least item and the heap without it; [None] on an empty
    heap (the loop condition [while open_heap] tests for it). *)
Definition heappop (heap : list entry) : option (entry * list entry) :=
  match heap with
  | [] => None
  | x :: rest => let m := heap_min x rest in Some (m, remove_first m heap)
  end.

(** ** The A* solver *)

Record astar_state : Type := AStarState {
  open_heap : list entry;
  g_cost : gmap (list Z) Z;
  parent : gmap (list Z) (list Z * Z);
  expansions : Z
}.

(** What a call of [astar_solve] ends in: a move list, [None], an uncaught
    exception, or (in the model only) no answer within the given fuel. *)
Inductive outcome : Type :=
  | Moves (moves : list Z)
  | NoSolution
  | Raised
  | OutOfFuel.

(** [g_cost.get(state, 10**9)] *)
Definition g_cost_get (g_cost : gmap (list Z) Z) (state : list Z) : Z :=
  default (10 ^ 9) (g_cost !! state).

(** The body of [for nb in neighbors(z)] for one [nb]. *)
Definition relax (state : list Z) (g : Z) (z nb : nat) (st : astar_state)
  : option astar_state :=
  moved_tile ← state !! nb;
  new_t ← swap_cells state z nb;
  let new_g := g + 1 in
  if new_g <? g_cost_get (g_cost st) new_t then
    new_h ← manhattan new_t;
    Some (AStarState
            (heappush (open_heap st) (new_g + new_h, new_g, new_t))
            (<[new_t := new_g]> (g_cost st))
            (<[new_t := (state, moved_tile)]> (parent st))
            (expansions st))
  else Some st.

Fixpoint relax_all (state : list Z) (g : Z) (z : nat) (nbs : list nat)
    (st : astar_state) : option astar_state :=
  match nbs with
  | [] => Some st
  | nb :: rest => st' ← relax state g z nb st; relax_all state g z rest st'
  end.

(** The loop [while cur in parent] that collects the moves, last move
    first; [None] when [fuel] iterations do not reach its end. *)
Fixpoint walk_parents (fuel : nat) (parent : gmap (list Z) (list Z * Z))
    (cur : list Z) (moves : list Z) : option (list Z) :=
  match parent !! cur with
  | None => Some moves
  | Some (prev, moved) =>
      match fuel with
      | O => None
      | S fuel' => walk_parents fuel' parent prev (moves ++ [moved])
      end
  end.

(** One iteration of [while open_heap]: the next loop state, or the
    outcome the call returns with. [wfuel] bounds the walk along the parent
    links. *)
Definition astar_step (wfuel : nat) (max_expansions : Z) (st : astar_state)
  : astar_state + outcome :=
  match heappop (open_heap st) with
  | None => inr NoSolution
  | Some ((f, g, state), heap') =>
      if decide (g ≠ g_cost_get (g_cost st) state)
      then inl (AStarState heap' (g_cost st) (parent st) (expansions st))
      else if decide (state = GOAL) then
        match walk_parents wfuel (parent st) state [] with
        | Some moves => inr (Moves (reverse moves))
        | None => inr OutOfFuel
        end
      else
        let expansions' := expansions st + 1 in
        if max_expansions <? expansions' then inr NoSolution
        else
          match index_of 0 state with
          | None => inr Raised
          | Some z =>
              match relax_all state g z (neighbors z)
                      (AStarState heap' (g_cost st) (parent st) expansions')
              with
              | Some st' => inl st'
              | None => inr Raised
              end
          end
  end.

Fixpoint astar_loop (fuel wfuel : nat) (max_expansions : Z)
    (st : astar_state) : outcome :=
  match fuel with
  | O => OutOfFuel
  | S fuel' =>
      match astar_step wfuel max_expansions st with
      | inr result => result
      | inl st' => astar_loop fuel' wfuel max_expansions st'
      end
  end.

Definition astar_solve (fuel : nat) (start : list Z) (max_expansions : Z)
  : outcome :=
  if decide (start = GOAL) then Moves []
  else
    match manhattan start with
    | None => Raised
    | Some h =>
        astar_loop fuel fuel max_expansions
          (AStarState (heappush [] (h, 0, start)) {[start := 0]} ∅ 0)
    end.

(** The default of [max_expansions]. *)
Definition default_max_expansions : Z := 250000.

(** Fuel that is enough for a call with the given budget: every iteration
    pops one item, and at most four items are pushed per expansion. *)
Definition enough_fuel (max_expansions : Z) : nat :=
  Z.to_nat (4 * Z.max 0 max_expansions + 4).

(** ** The GUI class: layout of the board *)

(** The class constants [TILE], [GAP] and [PAD]. *)
Definition TILE : Z := 92.
Definition GAP : Z := 10.
Definition PAD : Z := 12.

(** The side of the board frame, [side] in [_build_ui]. *)
Definition board_side : Z := PAD * 2 + TILE * 3 + GAP * 2.

(** [cell_rect]; a [QRect] is the tuple [(x, y, width, height)]. *)
Definition cell_rect (index : nat) : Z * Z * Z * Z :=
  let r := Z.of_nat (index / 3) in
  let c := Z.of_nat (index mod 3) in
  (PAD + c * (TILE + GAP), PAD + r * (TILE + GAP), TILE, TILE).

(** [idx_to_rc]: row and column, counted from 1, for the move log. *)
Definition idx_to_rc (idx : nat) : Z * Z :=
  (Z.of_nat (idx / 3) + 1, Z.of_nat (idx mod 3) + 1).

(** [_board_inner_side] *)
Definition board_inner_side : Z := TILE * 3 + GAP * 2.

(** The square that [_slice_image_into_tiles] cuts from the middle of a
    picture of the given width and height: the arguments of [pm.copy]. *)
Definition square_crop (width height : Z) : Z * Z * Z * Z :=
  let side := Z.min width height in
  ((width - side) / 2, (height - side) / 2, side, side).

(** The loop of [_slice_image_into_tiles] over [enumerate(GOAL)]: for each
    tile value the rectangle that [scaled.copy] cuts from the scaled
    picture. The dictionary [_tile_images] holds the cut pictures; the
    model holds the rectangles. *)
Fixpoint slice_from (idx : nat) (goal : list Z)
    (images : gmap Z (Z * Z * Z * Z)) : gmap Z (Z * Z * Z * Z) :=
  match goal with
  | [] => images
  | val :: rest =>
      if decide (val = 0) then slice_from (S idx) rest images
      else
        let r := Z.of_nat (idx / 3) in
        let c := Z.of_nat (idx mod 3) in
        slice_from (S idx) rest
          (<[val := (c * (TILE + GAP), r * (TILE + GAP), TILE, TILE)]> images)
  end.

Definition tile_slices : gmap Z (Z * Z * Z * Z) := slice_from 0 GOAL ∅.

(** The loop of [_sync_tiles_to_state] without animation, over
    [enumerate(self.state)]: the button of tile [val] is given the geometry
    of the cell it stands on. [geometry] maps a tile to the geometry of its
    button; [self.tiles] has the keys [range(1, 9)] that [_build_tiles]
    gives it, and any other value is a [KeyError]. *)
Fixpoint sync_from (idx : nat) (state : list Z)
    (geometry : gmap Z (Z * Z * Z * Z)) : option (gmap Z (Z * Z * Z * Z)) :=
  match state with
  | [] => Some geometry
  | val :: rest =>
      if decide (val = 0) then sync_from (S idx) rest geometry
      else if decide (1 ≤ val < 9)
      then sync_from (S idx) rest (<[val := cell_rect idx]> geometry)
      else None
  end.

Definition sync_tiles_to_state (state : list Z)
    (geometry : gmap Z (Z * Z * Z * Z)) : option (gmap Z (Z * Z * Z * Z)) :=
  sync_from 0 state geometry.

(** ** The GUI class: shuffling *)

(** [nbs.remove(last)]: without the first occurrence of [last]. The source
    calls it only when [last in nbs]. *)
Fixpoint list_remove (x : nat) (l : list nat) : list nat :=
  match l with
  | [] => []
  | y :: rest => if decide (y = x) then rest else y :: list_remove x rest
  end.

(** [random.choice(nbs)]: the entry at a random position; [pick] is the
    random number the position is drawn from. An empty list is an
    [IndexError]. *)
Definition random_choice (pick : nat) (nbs : list nat) : option nat :=
  match nbs with
  | [] => None
  | _ => nbs !! (pick mod length nbs)%nat
  end.

(** The variables of the loop of [on_shuffle]. *)
Record shuffle_state : Type := ShuffleState {
  sh_state : list Z;
  sh_zero : nat;
  sh_last : option nat
}.

(** One iteration of [for _ in range(80)]. *)
Definition shuffle_step (pick : nat) (st : shuffle_state)
  : option shuffle_state :=
  let nbs := neighbors (sh_zero st) in
  let nbs :=
    match sh_last st with
    | Some last =>
        if decide (last ∈ nbs) then
          if (1 <? length nbs)%nat then list_remove last nbs else nbs
        else nbs
    | None => nbs
    end in
  nxt ← random_choice pick nbs;
  state ← swap_cells (sh_state st) (sh_zero st) nxt;
  Some (ShuffleState state nxt (Some (sh_zero st))).

(** [n] iterations, from iteration [i] on; [rand i] is the random number
    of iteration [i]. *)
Fixpoint shuffle_loop (rand : nat → nat) (i n : nat) (st : shuffle_state)
  : option shuffle_state :=
  match n with
  | O => Some st
  | S n' => st' ← shuffle_step (rand i) st; shuffle_loop rand (S i) n' st'
  end.

(** [on_shuffle] outside an animation and a playback: the loop variables
    after the 80 iterations; [sh_state] is the new [self.state]. *)
Definition on_shuffle (rand : nat → nat) : option shuffle_state :=
  zero_idx ← index_of 0 GOAL;
  shuffle_loop rand 0 80 (ShuffleState GOAL zero_idx None).

(** ** The GUI class: the text of a state *)

(** [str(n)] for an [int]: its decimal numeral. *)
Definition py_str (n : Z) : list ascii :=
  String.list_ascii_of_string
    (DecimalString.NilZero.string_of_int (Z.to_int n)).

(** [sep.join(parts)] *)
Fixpoint join (sep : list ascii) (parts : list (list ascii)) : list ascii :=
  match parts with
  | [] => []
  | [p] => p
  | p :: rest => p ++ sep ++ join sep rest
  end.

(** [" ".join(map(str, self.state))], the text [on_shuffle] puts into the
    input field. *)
Definition state_text (state : list Z) : list ascii :=
  join [" "%char] (py_str <$> state).

(** ** Notions of the specification *)

(** A Board is a permutation of the values 0..8. *)
Definition Board (b : list Z) : Prop := b ≡ₚ [0; 1; 2; 3; 4; 5; 6; 7; 8].

(** [legal_move b m]: tile [m] is grid-adjacent to the blank of [b]. *)
Definition legal_move (b : list Z) (m : Z) : Prop :=
  ∃ zero_idx tile_idx,
    index_of 0 b = Some zero_idx ∧ index_of m b = Some tile_idx ∧
    tile_idx ∈ neighbors zero_idx.

(** Every move of the list is legal at the moment it is made. *)
Fixpoint moves_legal (state : list Z) (moves : list Z) : Prop :=
  match moves with
  | [] => True
  | m :: rest =>
      legal_move state m ∧
      ∃ state', apply_move_by_tile_value state m = Some state' ∧
                moves_legal state' rest
  end.

(** The pairs [(arr[i], arr[j])] with [i < j], and among them the
    inversions of a state: the pairs of non-blank tiles in which the larger
    value comes first. *)
Fixpoint ordered_pairs (arr : list Z) : list (Z * Z) :=
  match arr with
  | [] => []
  | x :: rest => ((λ y, (x, y)) <$> rest) ++ ordered_pairs rest
  end.

Definition inverted_pairs (state : list Z) : list (Z * Z) :=
  filter (λ p, p.1 > p.2) (ordered_pairs (filter (λ x, x ≠ 0) state)).

(** ** The textual forms of the specification *)

(** The characters that separate tokens: whitespace, comma, semicolon. *)
Definition separator (c : ascii) : bool :=
  isspace c || bool_decide (c = ","%char) || bool_decide (c = ";"%char).

Definition tokens_of (text : list ascii) : list (list ascii) :=
  split_on separator text [].

(** Nine decimal digits whose values are the values 0..8. *)
Definition digits_form (text : list ascii) (vals : list Z) : Prop :=
  length text = 9%nat ∧ Forall (λ c, isdecimal c = true) text ∧
  vals = digit_value <$> text ∧ vals ≡ₚ [0; 1; 2; 3; 4; 5; 6; 7; 8].

(** Nine separated integer tokens whose values are the values 0..8. *)
Definition tokens_form (text : list ascii) (vals : list Z) : Prop :=
  length (tokens_of text) = 9%nat ∧
  mapM py_int (tokens_of text) = Some vals ∧
  vals ≡ₚ [0; 1; 2; 3; 4; 5; 6; 7; 8].



(** ** Auxiliary definitions for the proofs *)

(** The summand of [manhattan] for tile [v] at position [i], for a tile
    value in 0..8 (tile [v] has goal position [v - 1]). *)
Definition tile_distance (i : nat) (v : Z) : Z :=
  if decide (v = 0) then 0 else grid_distance i (Z.to_nat (v - 1)).

(** The sum that [manhattan] returns on such values, for a list that
    starts at position [i]. *)
Fixpoint sum_distances (i : nat) (l : list Z) : Z :=
  match l with
  | [] => 0
  | v :: rest => tile_distance i v + sum_distances (S i) rest
  end.

(** The two shapes of a swap of the blank with the tile [v]. *)
Inductive swap_shape (z nb : nat) (v : Z) (s t : list Z) : Prop :=
  | shape_forward A M C :
      s = A ++ 0 :: M ++ v :: C → t = A ++ v :: M ++ 0 :: C →
      length A = z → (length A + S (length M))%nat = nb →
      swap_shape z nb v s t
  | shape_backward A M C :
      s = A ++ v :: M ++ 0 :: C → t = A ++ 0 :: M ++ v :: C →
      length A = nb → (length A + S (length M))%nat = z →
      swap_shape z nb v s t.

(** For every cell, every neighbouring cell and every tile, the distances
    of the tile from the two cells differ by at most 1. *)
Definition adjacent_cells_close : bool :=
  forallb (λ z,
    forallb (λ nb,
      forallb (λ v, Z.abs (tile_distance z v - tile_distance nb v) <=? 1)
        [1; 2; 3; 4; 5; 6; 7; 8])
      (neighbors z))
    (seq 0 9).

(** The number of entries of [l] below [x]: one summand of
    [count_inversions]. *)
Definition smaller (x : Z) (l : list Z) : Z :=
  Z.of_nat (length (filter (λ y, y < x) l)).

(** The loop state after the relaxation of the successor [t] of [s],
    reached by moving the tile [v], on Boards. *)
Definition relaxed (s : list Z) (g : Z) (v : Z) (t : list Z)
    (st : astar_state) : astar_state :=
  if g + 1 <? g_cost_get (g_cost st) t
  then AStarState ((g + 1 + sum_distances 0 t, g + 1, t) :: open_heap st)
         (<[t := g + 1]> (g_cost st)) (<[t := (s, v)]> (parent st))
         (expansions st)
  else st.

(** What holds of the dictionaries and the heap at every iteration. *)
Record sound (start : list Z) (st : astar_state) : Prop := {
  sound_start : g_cost st !! start = Some 0;
  sound_start_parent : parent st !! start = None;
  sound_cost : ∀ s g, g_cost st !! s = Some g →
    Board s ∧ 0 ≤ g ≤ expansions st ∧
    ∃ ms, Z.of_nat (length ms) = g ∧ replay start ms = Some s;
  sound_parent : ∀ s g, g_cost st !! s = Some g → s ≠ start →
    ∃ p m gp, parent st !! s = Some (p, m) ∧ g_cost st !! p = Some gp ∧
              gp < g ∧ apply_move_by_tile_value p m = Some s;
  sound_parent_dom : ∀ s pm, parent st !! s = Some pm →
    is_Some (g_cost st !! s);
  sound_heap : ∀ f g s, (f, g, s) ∈ open_heap st →
    ∃ g', g_cost st !! s = Some g' ∧ g' ≤ g ∧ f = g + sum_distances 0 s
}.

(** The loop variant: items on the heap, and four per remaining
    expansion. *)
Definition variant (max_expansions : Z) (st : astar_state) : Z :=
  Z.of_nat (length (open_heap st))
  + 4 * (Z.max 0 max_expansions - expansions st).

(** The loop state before the first iteration. *)
Definition initial_state (start : list Z) : astar_state :=
  AStarState [(sum_distances 0 start, 0, start)] {[start := 0]} ∅ 0.

(** [s] has its current cost [g] on the heap. *)
Definition is_open (st : astar_state) (s : list Z) (g : Z) : Prop :=
  (g + sum_distances 0 s, g, s) ∈ open_heap st.

(** [s] was expanded at cost [g]: every successor is known at cost at most
    [g + 1]. The goal is never expanded. *)
Definition is_closed (st : astar_state) (s : list Z) (g : Z) : Prop :=
  s ≠ GOAL ∧
  ∀ m t, apply_move_by_tile_value s m = Some t →
         ∃ gt, g_cost st !! t = Some gt ∧ gt ≤ g + 1.

(** The expanded states: their cost is the least number of moves from
    [start], and no item for that cost is left on the heap. *)
Definition settled (start : list Z) (st : astar_state)
    (cl : list (list Z)) : Prop :=
  ∀ s, s ∈ cl →
    ∃ g, g_cost st !! s = Some g ∧
         (∀ ms, replay start ms = Some s → g ≤ Z.of_nat (length ms)) ∧
         ∀ f, (f, g, s) ∉ open_heap st.

(** What holds in addition at every iteration: every known state is on
    the heap at its current cost or was expanded, and the expanded states
    are as many as [expansions] counts. *)
Record optimal (start : list Z) (st : astar_state) : Prop := {
  opt_nodup : NoDup (open_heap st);
  opt_open : ∀ s g, g_cost st !! s = Some g →
    is_open st s g ∨ is_closed st s g;
  opt_settled : ∃ cl, NoDup cl ∧ Z.of_nat (length cl) = expansions st ∧
                      settled start st cl
}.

(** The state of the dictionaries while [s] is being expanded. *)
Record expanding (start s : list Z) (g : Z) (cl : list (list Z))
    (st : astar_state) : Prop := {
  mid_sound : sound start st;
  mid_cost : g_cost st !! s = Some g;
  mid_nodup : NoDup (open_heap st);
  mid_open : ∀ x gx, g_cost st !! x = Some gx → x ≠ s →
    is_open st x gx ∨ is_closed st x gx;
  mid_settled : settled start st cl
}.

(** The states one move away, as the loop [for nb in neighbors(z)] of the
    solver builds them. *)
Definition successors (s : list Z) : list (list Z) :=
  match index_of 0 s with
  | None => []
  | Some z => omap (swap_cells s z) (neighbors z)
  end.

(** One step of the search: a state not seen before joins the next
    frontier, and its code the visited set. *)
Definition bfs_visit (acc : list (list Z) * PositiveSet.t) (t : list Z)
  : list (list Z) * PositiveSet.t :=
  let c := encode t in
  if PositiveSet.mem c acc.2 then acc
  else (t :: acc.1, PositiveSet.add c acc.2).

(** The successors of a whole frontier. *)
Definition bfs_layer (next : list Z → list (list Z))
    (frontier : list (list Z)) (acc : list (list Z) * PositiveSet.t)
  : list (list Z) * PositiveSet.t :=
  fold_left (λ acc b, fold_left bfs_visit (next b) acc) frontier acc.

(** Breadth-first search: the codes of the states found from [frontier]
    in at most [fuel] layers, added to [visited]. *)
Fixpoint bfs (next : list Z → list (list Z)) (fuel : nat)
    (frontier : list (list Z)) (visited : PositiveSet.t) : PositiveSet.t :=
  match fuel with
  | O => visited
  | S f =>
      let r := bfs_layer next frontier ([], visited) in bfs next f r.1 r.2
  end.

(** The codes of the states of a list. *)
Definition codes (l : list (list Z)) : PositiveSet.t :=
  fold_right (λ t, PositiveSet.add (encode t)) PositiveSet.empty l.

(** Every code in [visited] is the code of a state with property [R]. *)
Definition covered (R : list Z → Prop) (visited : PositiveSet.t) : Prop :=
  ∀ c, PositiveSet.In c visited → ∃ b, R b ∧ encode b = c.

(** Stage 1 forgets the tiles 4..8. *)
Definition abstract_tile (v : Z) : Z := if decide (4 ≤ v) then 9 else v.

(** The arrangements of stage 1 with the top row in place. *)
Definition top_seeds : list (list Z) :=
  (λ t, [1; 2; 3] ++ t) <$> interleave 0 [9; 9; 9; 9; 9].

(** All ways to insert [x] into a list of [ls]. *)
Definition place (x : Z) (ls : list (list Z)) : list (list Z) :=
  ls ≫= interleave x.

(** All arrangements of stage 1: the blank and the tiles 1, 2, 3 among
    five forgotten tiles. *)
Definition abstract_states : list (list Z) :=
  place 0 (place 1 (place 2 (place 3 [[9; 9; 9; 9; 9]]))).

(** What the search of stage 1 finds from the arrangements with the top
    row in place. *)
Definition seen_abstract : PositiveSet.t :=
  bfs successors 40 top_seeds (codes top_seeds).

(** The top row is in place. *)
Definition top_solved (b : list Z) : bool :=
  bool_decide (take 3 b = [1; 2; 3]).

(** The moves of stage 2 leave the top row in place. *)
Definition lower_successors (b : list Z) : list (list Z) :=
  filter (λ t, top_solved t = true) (successors b).

(** What the search of stage 2 finds from [GOAL]. *)
Definition seen_lower : PositiveSet.t :=
  bfs lower_successors 40 [GOAL] (codes [GOAL]).

(** The property the search of stage 2 keeps: a Board from which [GOAL]
    can be reached. *)
Definition reaches_goal (b : list Z) : Prop :=
  Board b ∧ ∃ ms, replay b ms = Some GOAL.

(** The property the search of stage 1 keeps: every Board with the
    arrangement [t] can be brought to a Board with the top row in place. *)
Definition reaches_top (t : list Z) : Prop :=
  ∀ b, Board b → abstract_tile <$> b = t →
       ∃ ms b', replay b ms = Some b' ∧ top_solved b' = true.

(** All solvable Boards. *)
Definition solvable_boards : list (list Z) :=
  filter (λ b, is_solvable_3x3 b = true)
    (permutations [0; 1; 2; 3; 4; 5; 6; 7; 8]).

(** What holds of the loop variables of [on_shuffle] at every iteration;
    [ms] are the tiles moved so far. *)
Record shuffled (ms : list Z) (st : shuffle_state) : Prop := {
  shuffled_replay : replay GOAL ms = Some (sh_state st);
  shuffled_zero : index_of 0 (sh_state st) = Some (sh_zero st);
  shuffled_last :
    match sh_last st with
    | None => ms = []
    | Some l => l ∈ neighbors (sh_zero st) ∧
                ∃ m, last ms = Some m ∧ sh_state st !! l = Some m
    end;
  shuffled_no_repeat : ∀ before m after, ms ≠ before ++ m :: m :: after
}.

(** Rectangles [(x, y, width, height)]: [a] lies within [b]; [a] and [b]
    have at least [gap] between them. *)
Definition rect_within (a b : Z * Z * Z * Z) : Prop :=
  let '(x, y, w, h) := a in
  let '(x', y', w', h') := b in
  x' ≤ x ∧ x + w ≤ x' + w' ∧ y' ≤ y ∧ y + h ≤ y' + h'.

Definition rects_apart (gap : Z) (a b : Z * Z * Z * Z) : Prop :=
  let '(x, y, w, h) := a in
  let '(x', y', w', h') := b in
  x + w + gap ≤ x' ∨ x' + w' + gap ≤ x ∨
  y + h + gap ≤ y' ∨ y' + h' + gap ≤ y.

(** * Properties *)

(** ** Boards *)

Lemma Board_length b : Board b → length b = 9%nat.
Proof. unfold Board. intros Hb. by rewrite Hb. Qed.

Lemma Board_range b : Board b → Forall (λ v, 0 ≤ v ≤ 8) b.
Proof.
  unfold Board. intros Hb. rewrite Hb. repeat (constructor; [lia|]).
  constructor.
Qed.

Lemma Board_NoDup b : Board b → NoDup b.
Proof.
  unfold Board. intros Hb. rewrite Hb. apply (bool_decide_unpack _).
  by vm_compute.
Qed.

Lemma Board_GOAL : Board GOAL.
Proof. apply (bool_decide_unpack _). by vm_compute. Qed.

Lemma length_9_explicit (l : list Z) :
  length l = 9%nat →
  ∃ a0 a1 a2 a3 a4 a5 a6 a7 a8, l = [a0; a1; a2; a3; a4; a5; a6; a7; a8].
Proof.
  intros H. do 9 (destruct l as [|? l]; [discriminate|]).
  destruct l; [|discriminate]. by repeat eexists.
Qed.

Lemma range_0_8_cases (v : Z) :
  0 ≤ v ≤ 8 →
  v = 0 ∨ v = 1 ∨ v = 2 ∨ v = 3 ∨ v = 4 ∨ v = 5 ∨ v = 6 ∨ v = 7 ∨ v = 8.
Proof. lia. Qed.

(** ** The heuristic *)

Lemma GOAL_POS_tile v : 1 ≤ v ≤ 8 → GOAL_POS v = Some (Z.to_nat (v - 1)).
Proof.
  intros Hv. assert (0 ≤ v ≤ 8) as Hc by lia.
  destruct (range_0_8_cases v Hc) as [->|H]; [lia|].
  repeat (destruct H as [->|H]; [reflexivity|]). by subst.
Qed.

Lemma manhattan_from_sum i l d :
  Forall (λ v, 0 ≤ v ≤ 8) l →
  manhattan_from i l d = Some (d + sum_distances i l).
Proof.
  intros Hl. revert i d. induction Hl as [|v l Hv _ IH]; intros i d; simpl.
  - f_equal. lia.
  - unfold tile_distance. destruct (decide (v = 0)) as [->|Hne].
    + rewrite IH. f_equal.
    + rewrite GOAL_POS_tile by lia. simpl. rewrite IH. f_equal. lia.
Qed.

Lemma manhattan_sum l :
  Forall (λ v, 0 ≤ v ≤ 8) l → manhattan l = Some (sum_distances 0 l).
Proof. intros Hl. unfold manhattan. by rewrite manhattan_from_sum. Qed.

Lemma grid_distance_nonneg i gi : 0 ≤ grid_distance i gi.
Proof. unfold grid_distance. lia. Qed.

Lemma tile_distance_nonneg i v : 0 ≤ tile_distance i v.
Proof.
  unfold tile_distance. destruct (decide _); [lia|apply grid_distance_nonneg].
Qed.

Lemma sum_distances_nonneg i l : 0 ≤ sum_distances i l.
Proof.
  revert i. induction l as [|v l IH]; intros i; simpl; [lia|].
  specialize (IH (S i)). pose proof (tile_distance_nonneg i v). lia.
Qed.

(** A tile is at distance 0 only on its goal cell. *)
Lemma tile_distance_zero (i : nat) v :
  (i < 9)%nat → 0 ≤ v ≤ 8 → tile_distance i v = 0 →
  v = 0 ∨ v = Z.of_nat i + 1.
Proof.
  intros Hi Hv.
  do 9 (destruct i as [|i]; [
    destruct (range_0_8_cases v Hv) as [->|H]; [by left|];
    repeat (destruct H as [->|H]; [vm_compute; (by right) || discriminate|]);
    subst; vm_compute; (by right) || discriminate |]).
  lia.
Qed.


(** ** Positions and swaps *)

Lemma index_of_Some v l i : index_of v l = Some i → l !! i = Some v.
Proof.
  revert i. induction l as [|x l IH]; intros i; simpl; [done|].
  destruct (decide (x = v)) as [->|Hne].
  - by intros [= <-].
  - destruct (index_of v l) as [k|]; simpl; [|done].
    intros [= <-]. by apply IH.
Qed.

Lemma index_of_NoDup v l i : NoDup l → l !! i = Some v → index_of v l = Some i.
Proof.
  intros Hnd. revert i. induction Hnd as [|x l Hx Hnd IH]; intros i Hi.
  - done.
  - simpl. destruct (decide (x = v)) as [->|Hne].
    + destruct i as [|i]; [done|]. simpl in Hi.
      exfalso. apply Hx. by eapply list_elem_of_lookup_2.
    + destruct i as [|i]; simpl in Hi; [congruence|].
      by rewrite (IH i Hi).
Qed.

Lemma index_of_is_Some v l : v ∈ l → is_Some (index_of v l).
Proof.
  induction 1 as [x l|x y l Hin IH]; simpl.
  - rewrite decide_True by done. eauto.
  - destruct (decide (y = x)); [eauto|]. destruct IH as [k ->]. simpl. eauto.
Qed.

Lemma lookup_middle_len (A : list Z) x R : (A ++ x :: R) !! length A = Some x.
Proof. by apply list_lookup_middle. Qed.

Lemma insert_middle_len (A : list Z) x y R :
  <[length A := y]> (A ++ x :: R) = A ++ y :: R.
Proof. induction A as [|a A IH]; simpl; [done|]. by rewrite IH. Qed.

Lemma split_two (l : list Z) i j x y :
  l !! i = Some x → l !! j = Some y → (i < j)%nat →
  ∃ A M C, l = A ++ x :: M ++ y :: C ∧ length A = i ∧
           (length A + S (length M))%nat = j.
Proof.
  intros Hi Hj Hlt.
  pose proof (take_drop_middle l i x Hi) as E1.
  assert (drop (S i) l !! (j - i - 1)%nat = Some y) as Hd.
  { rewrite lookup_drop. by replace (S i + (j - i - 1))%nat with j by lia. }
  pose proof (take_drop_middle _ _ _ Hd) as E2.
  exists (take i l), (take (j - i - 1) (drop (S i) l)),
         (drop (S (j - i - 1)) (drop (S i) l)).
  apply lookup_lt_Some in Hi. apply lookup_lt_Some in Hj.
  split; [by rewrite E2, E1|].
  rewrite !length_take, length_drop. lia.
Qed.

Lemma lookup_second_len (A M C : list Z) x y :
  (A ++ x :: M ++ y :: C) !! (length A + S (length M))%nat = Some y.
Proof.
  replace (A ++ x :: M ++ y :: C) with ((A ++ x :: M) ++ y :: C)
    by (by rewrite <- app_assoc).
  apply list_lookup_middle. by rewrite length_app.
Qed.

Lemma insert_second_len (A M C : list Z) x y w :
  <[(length A + S (length M))%nat := w]> (A ++ x :: M ++ y :: C)
  = A ++ x :: M ++ w :: C.
Proof.
  replace (A ++ x :: M ++ y :: C) with ((A ++ x :: M) ++ y :: C)
    by (by rewrite <- app_assoc).
  replace (length A + S (length M))%nat with (length (A ++ x :: M))
    by (by rewrite length_app).
  rewrite insert_middle_len. by rewrite <- app_assoc.
Qed.

Lemma swap_cells_app_lt (A M C : list Z) x y :
  swap_cells (A ++ x :: M ++ y :: C) (length A) (length A + S (length M))
  = Some (A ++ y :: M ++ x :: C).
Proof.
  unfold swap_cells. rewrite lookup_second_len, lookup_middle_len. simpl.
  by rewrite insert_middle_len, insert_second_len.
Qed.

Lemma swap_cells_app_gt (A M C : list Z) x y :
  swap_cells (A ++ x :: M ++ y :: C) (length A + S (length M)) (length A)
  = Some (A ++ y :: M ++ x :: C).
Proof.
  unfold swap_cells. rewrite lookup_second_len, lookup_middle_len. simpl.
  by rewrite insert_second_len, insert_middle_len.
Qed.

Lemma swap_cells_shape s z nb v :
  s !! z = Some 0 → s !! nb = Some v → z ≠ nb →
  ∃ t, swap_cells s z nb = Some t ∧ swap_shape z nb v s t.
Proof.
  intros Hz Hnb Hne.
  destruct (decide (z < nb)%nat) as [Hlt|Hge].
  - destruct (split_two s z nb 0 v Hz Hnb Hlt) as (A & M & C & -> & <- & <-).
    eexists. split; [apply swap_cells_app_lt|].
    by eapply shape_forward.
  - assert (nb < z)%nat as Hlt by lia.
    destruct (split_two s nb z v 0 Hnb Hz Hlt) as (A & M & C & -> & <- & <-).
    eexists. split; [apply swap_cells_app_gt|].
    by eapply shape_backward.
Qed.

Lemma swap_shape_Permutation z nb v s t : swap_shape z nb v s t → t ≡ₚ s.
Proof.
  intros [A M C -> -> _ _|A M C -> -> _ _];
    apply Permutation_app_head;
    rewrite <- !Permutation_middle; apply perm_swap.
Qed.

(** ** The grid *)

Lemma neighbors_spec z nb :
  (z < 9)%nat →
  nb ∈ neighbors z ↔
  (nb < 9)%nat ∧
  (nb = z + 3 ∨ z = nb + 3 ∨ (nb = z + 1 ∧ z ≠ 2 ∧ z ≠ 5) ∨
   (z = nb + 1 ∧ nb ≠ 2 ∧ nb ≠ 5))%nat.
Proof.
  intros Hz.
  assert (z = 0 ∨ z = 1 ∨ z = 2 ∨ z = 3 ∨ z = 4 ∨ z = 5 ∨ z = 6 ∨ z = 7 ∨
          z = 8)%nat as Hc by lia.
  repeat (destruct Hc as [->|Hc]); [..|subst z];
    match goal with
    | |- context [neighbors ?k] =>
        let l := eval vm_compute in (neighbors k) in
        change (neighbors k) with l
    end;
    rewrite ?elem_of_cons, ?elem_of_nil; lia.
Qed.

Lemma neighbors_sym z nb :
  (z < 9)%nat → nb ∈ neighbors z → (nb < 9)%nat ∧ nb ≠ z ∧ z ∈ neighbors nb.
Proof.
  intros Hz Hnb. apply neighbors_spec in Hnb as [Hlt Hc]; [|done].
  split; [done|]. split; [lia|]. apply neighbors_spec; [done|]. lia.
Qed.

(** ** Consistency of the heuristic *)

Lemma sum_distances_app i A B :
  sum_distances i (A ++ B)
  = sum_distances i A + sum_distances (i + length A) B.
Proof.
  revert i. induction A as [|a A IH]; intros i; simpl.
  - by rewrite Nat.add_0_r.
  - rewrite IH. replace (S i + length A)%nat with (i + S (length A))%nat by lia.
    lia.
Qed.

Lemma tile_distance_blank i : tile_distance i 0 = 0.
Proof. done. Qed.

Lemma adjacent_cells_close_true : adjacent_cells_close = true.
Proof. by vm_compute. Qed.

(** Sliding a tile by one cell changes its distance by at most 1. *)
Lemma tile_distance_neighbor z nb v :
  (z < 9)%nat → nb ∈ neighbors z → 1 ≤ v ≤ 8 →
  Z.abs (tile_distance z v - tile_distance nb v) ≤ 1.
Proof.
  intros Hz Hnb Hv. pose proof adjacent_cells_close_true as H.
  unfold adjacent_cells_close in H. rewrite forallb_forall in H.
  specialize (H z). rewrite forallb_forall in H.
  assert (In z (seq 0 9)) as Hin by (apply in_seq; lia).
  specialize (H Hin nb). rewrite forallb_forall in H.
  assert (In nb (neighbors z)) as Hin' by (by apply list_elem_of_In).
  specialize (H Hin' v).
  assert (In v [1; 2; 3; 4; 5; 6; 7; 8]) as Hin''.
  { simpl. lia. }
  specialize (H Hin''). lia.
Qed.

Lemma swap_shape_distance z nb v s t :
  swap_shape z nb v s t →
  sum_distances 0 t
  = sum_distances 0 s + tile_distance z v - tile_distance nb v.
Proof.
  intros [A M C -> -> <- <-|A M C -> -> <- <-];
    rewrite !sum_distances_app; simpl; rewrite !sum_distances_app; simpl;
    rewrite ?Nat.add_succ_r, !tile_distance_blank; lia.
Qed.

(** ** Inversions under a swap *)

Lemma count_inversions_cons x l :
  count_inversions (x :: l) = smaller x l + count_inversions l.
Proof. done. Qed.

Lemma smaller_nil x : smaller x [] = 0.
Proof. done. Qed.

Lemma smaller_cons x y l :
  smaller x (y :: l) = (if decide (y < x) then 1 else 0) + smaller x l.
Proof.
  unfold smaller. rewrite filter_cons.
  destruct (decide (y < x)); simpl; lia.
Qed.

Lemma smaller_app x A B : smaller x (A ++ B) = smaller x A + smaller x B.
Proof. unfold smaller. rewrite filter_app, length_app. lia. Qed.

Lemma smaller_bounds x l : 0 ≤ smaller x l ≤ Z.of_nat (length l).
Proof. unfold smaller. pose proof (length_filter (λ y, y < x) l). lia. Qed.

(** Moving [v] from behind [Y] to its front. *)
Lemma count_inversions_move_front Y v W :
  v ∉ Y →
  count_inversions (Y ++ v :: W)
  = count_inversions (v :: Y ++ W) + Z.of_nat (length Y) - 2 * smaller v Y.
Proof.
  induction Y as [|y Y IH]; intros Hv.
  - simpl. rewrite smaller_nil. lia.
  - apply not_elem_of_cons in Hv as [Hne Hv]. specialize (IH Hv).
    change ((y :: Y) ++ v :: W) with (y :: (Y ++ v :: W)).
    change ((y :: Y) ++ W) with (y :: (Y ++ W)).
    rewrite (count_inversions_cons y), IH.
    rewrite !count_inversions_cons, !smaller_app, !smaller_cons, !smaller_app.
    simpl length. repeat destruct (decide _); lia.
Qed.

Lemma count_inversions_move X Y v W :
  v ∉ Y →
  count_inversions (X ++ Y ++ v :: W)
  = count_inversions (X ++ v :: Y ++ W)
    + Z.of_nat (length Y) - 2 * smaller v Y.
Proof.
  intros Hv. induction X as [|x X IH].
  - by apply count_inversions_move_front.
  - change ((x :: X) ++ Y ++ v :: W) with (x :: (X ++ Y ++ v :: W)).
    change ((x :: X) ++ v :: Y ++ W) with (x :: (X ++ v :: Y ++ W)).
    rewrite !count_inversions_cons, IH.
    rewrite !smaller_app, !smaller_cons, !smaller_app. lia.
Qed.

Lemma filter_nonzero_id (l : list Z) : 0 ∉ l → filter (λ x, x ≠ 0) l = l.
Proof.
  induction l as [|x l IH]; intros H; [done|].
  apply not_elem_of_cons in H as [Hne H].
  rewrite filter_cons_True by done. by rewrite IH.
Qed.

Lemma filter_blank_first (A M C : list Z) v :
  0 ∉ M → v ≠ 0 →
  filter (λ x, x ≠ 0) (A ++ 0 :: M ++ v :: C)
  = filter (λ x, x ≠ 0) A ++ M ++ v :: filter (λ x, x ≠ 0) C.
Proof.
  intros HM Hv. rewrite filter_app, filter_cons_False by (intros H; by apply H).
  by rewrite filter_app, filter_cons_True, (filter_nonzero_id M).
Qed.

Lemma filter_blank_second (A M C : list Z) v :
  0 ∉ M → v ≠ 0 →
  filter (λ x, x ≠ 0) (A ++ v :: M ++ 0 :: C)
  = filter (λ x, x ≠ 0) A ++ v :: M ++ filter (λ x, x ≠ 0) C.
Proof.
  intros HM Hv. rewrite filter_app, filter_cons_True by done.
  rewrite filter_app, filter_cons_False by (intros H; by apply H).
  by rewrite (filter_nonzero_id M).
Qed.

Lemma NoDup_two_cells (A M C : list Z) x y :
  NoDup (A ++ x :: M ++ y :: C) → (x ∉ M) ∧ (y ∉ M) ∧ x ≠ y.
Proof.
  intros Hnd. apply NoDup_app in Hnd as (_ & _ & Hnd).
  apply NoDup_cons in Hnd as [Hx Hnd].
  apply NoDup_app in Hnd as (_ & HM & _).
  split; [|split].
  - intros Hin. apply Hx, elem_of_app. by left.
  - intros Hin. apply (HM y Hin). by left.
  - intros ->. apply Hx, elem_of_app. right. by left.
Qed.

Lemma swap_shape_inversions z nb v s t :
  NoDup s → swap_shape z nb v s t →
  (nb = z + 1 ∨ nb = z + 3 ∨ z = nb + 1 ∨ z = nb + 3)%nat →
  ∃ k, inversions t = inversions s + k * 2.
Proof.
  intros Hnd [A M C -> -> <- <-|A M C -> -> <- <-] Hc.
  - destruct (NoDup_two_cells _ _ _ _ _ Hnd) as (H0M & HvM & Hv0).
    unfold inversions.
    rewrite filter_blank_first, filter_blank_second by done.
    rewrite (count_inversions_move _ M v) by done.
    assert (length M = 0 ∨ length M = 2)%nat as [->| ->] by lia.
    + exists (smaller v M). lia.
    + exists (smaller v M - 1). lia.
  - destruct (NoDup_two_cells _ _ _ _ _ Hnd) as (HvM & H0M & Hv0).
    unfold inversions.
    rewrite filter_blank_first, filter_blank_second by done.
    rewrite (count_inversions_move _ M v) by done.
    assert (length M = 0 ∨ length M = 2)%nat as [->| ->] by lia.
    + exists (- smaller v M). lia.
    + exists (1 - smaller v M). lia.
Qed.

(** The double loop counts the inverted pairs. *)
Lemma smaller_pairs x l :
  smaller x l = Z.of_nat (length (filter (λ p : Z * Z, p.1 > p.2)
                                    ((λ y, (x, y)) <$> l))).
Proof.
  unfold smaller. induction l as [|y l IH]; [done|].
  rewrite fmap_cons, !filter_cons. simpl.
  destruct (decide (y < x)), (decide (x > y)); simpl; lia.
Qed.

Lemma count_inversions_pairs arr :
  count_inversions arr
  = Z.of_nat (length (filter (λ p : Z * Z, p.1 > p.2) (ordered_pairs arr))).
Proof.
  induction arr as [|x arr IH]; [done|].
  rewrite count_inversions_cons. cbn [ordered_pairs].
  rewrite filter_app, length_app, IH, smaller_pairs. lia.
Qed.

(** ** Moves on Boards *)

Lemma Board_elem b v : Board b → v ∈ b ↔ 0 ≤ v ≤ 8.
Proof.
  unfold Board. intros Hb. rewrite Hb, !elem_of_cons, elem_of_nil. lia.
Qed.

Lemma Board_index_blank s :
  Board s → ∃ z, index_of 0 s = Some z ∧ (z < 9)%nat ∧ s !! z = Some 0.
Proof.
  intros Hb. assert (0 ∈ s) as Hin by (apply (Board_elem s 0 Hb); lia).
  destruct (index_of_is_Some 0 s Hin) as [z Hz]. exists z.
  pose proof (index_of_Some _ _ _ Hz) as Hl.
  pose proof (lookup_lt_Some _ _ _ Hl) as Hlt.
  rewrite (Board_length s Hb) in Hlt. done.
Qed.

Lemma apply_move_inv s m t :
  apply_move_by_tile_value s m = Some t →
  ∃ z nb, index_of 0 s = Some z ∧ index_of m s = Some nb ∧
          nb ∈ neighbors z ∧ swap_cells s z nb = Some t.
Proof.
  unfold apply_move_by_tile_value. intros H.
  destruct (index_of 0 s) as [z|]; simpl in H; [|done].
  destruct (index_of m s) as [nb|]; simpl in H; [|done].
  destruct (decide (nb ∈ neighbors z)); [|done]. by exists z, nb.
Qed.

Lemma neighbor_move s z nb :
  Board s → index_of 0 s = Some z → nb ∈ neighbors z →
  ∃ v t, s !! nb = Some v ∧ swap_cells s z nb = Some t ∧
         apply_move_by_tile_value s v = Some t.
Proof.
  intros Hb Hz Hnb.
  pose proof (index_of_Some _ _ _ Hz) as Hlz.
  pose proof (lookup_lt_Some _ _ _ Hlz) as Hlt.
  rewrite (Board_length s Hb) in Hlt.
  destruct (neighbors_sym z nb Hlt Hnb) as (Hnb9 & Hne & _).
  destruct (lookup_lt_is_Some_2 s nb) as [v Hv].
  { by rewrite (Board_length s Hb). }
  destruct (swap_cells_shape s z nb v Hlz Hv) as (t & Ht & _); [done|].
  exists v, t. split; [done|]. split; [done|].
  unfold apply_move_by_tile_value. rewrite Hz. simpl.
  rewrite (index_of_NoDup v s nb (Board_NoDup s Hb) Hv). simpl.
  by rewrite decide_True.
Qed.

Lemma move_shape s m t :
  Board s → apply_move_by_tile_value s m = Some t →
  ∃ z nb, index_of 0 s = Some z ∧ (z < 9)%nat ∧ nb ∈ neighbors z ∧
          s !! nb = Some m ∧ 1 ≤ m ≤ 8 ∧
          swap_cells s z nb = Some t ∧ swap_shape z nb m s t.
Proof.
  intros Hb Hm. destruct (apply_move_inv s m t Hm) as (z & nb & Hz & Hi & Hnb & Hs).
  pose proof (index_of_Some _ _ _ Hz) as Hlz.
  pose proof (index_of_Some _ _ _ Hi) as Hlnb.
  pose proof (lookup_lt_Some _ _ _ Hlz) as Hlt.
  rewrite (Board_length s Hb) in Hlt.
  destruct (neighbors_sym z nb Hlt Hnb) as (Hnb9 & Hne & _).
  destruct (swap_cells_shape s z nb m Hlz Hlnb) as (t' & Ht' & Hsh); [done|].
  assert (t' = t) as -> by congruence.
  exists z, nb. repeat split; try done.
  - assert (0 ≤ m ≤ 8) as Hr.
    { apply (Board_elem s m Hb). by eapply list_elem_of_lookup_2. }
    assert (m ≠ 0); [|lia]. intros ->.
    apply Hne. by apply (NoDup_lookup s nb z 0 (Board_NoDup s Hb)).
  - assert (0 ≤ m ≤ 8) as Hr; [|lia].
    apply (Board_elem s m Hb). by eapply list_elem_of_lookup_2.
Qed.

Lemma move_Board s m t :
  Board s → apply_move_by_tile_value s m = Some t → Board t.
Proof.
  intros Hb Hm.
  destruct (move_shape s m t Hb Hm) as (z & nb & _ & _ & _ & _ & _ & _ & Hsh).
  unfold Board in *. by rewrite (swap_shape_Permutation _ _ _ _ _ Hsh).
Qed.

Lemma move_distance s m t :
  Board s → apply_move_by_tile_value s m = Some t →
  Z.abs (sum_distances 0 t - sum_distances 0 s) ≤ 1.
Proof.
  intros Hb Hm.
  destruct (move_shape s m t Hb Hm)
    as (z & nb & _ & Hz & Hnb & _ & Hr & _ & Hsh).
  rewrite (swap_shape_distance _ _ _ _ _ Hsh).
  pose proof (tile_distance_neighbor z nb m Hz Hnb Hr). lia.
Qed.

Lemma move_solvable s m t :
  Board s → apply_move_by_tile_value s m = Some t →
  is_solvable_3x3 t = is_solvable_3x3 s.
Proof.
  intros Hb Hm.
  destruct (move_shape s m t Hb Hm)
    as (z & nb & _ & Hz & Hnb & _ & _ & _ & Hsh).
  apply neighbors_spec in Hnb as [_ Hc]; [|done].
  destruct (swap_shape_inversions z nb m s t (Board_NoDup s Hb) Hsh)
    as [k Hk]; [lia|].
  unfold is_solvable_3x3. by rewrite Hk, Z_mod_plus_full.
Qed.

(** Moving the same tile again undoes a move. *)
Lemma move_back s m t :
  Board s → apply_move_by_tile_value s m = Some t →
  apply_move_by_tile_value t m = Some s.
Proof.
  intros Hb Hm. pose proof (move_Board s m t Hb Hm) as Hbt.
  destruct (move_shape s m t Hb Hm)
    as (z & nb & _ & Hz & Hnb & _ & _ & _ & Hsh).
  destruct (neighbors_sym z nb Hz Hnb) as (_ & _ & Hsym).
  pose proof (Board_NoDup t Hbt) as Hnd.
  unfold apply_move_by_tile_value.
  destruct Hsh as [A M C -> -> <- <-|A M C -> -> <- <-].
  - rewrite (index_of_NoDup 0 _ (length A + S (length M)) Hnd)
      by apply lookup_second_len.
    rewrite (index_of_NoDup m _ (length A) Hnd) by apply lookup_middle_len.
    simpl. rewrite decide_True by done. apply swap_cells_app_gt.
  - rewrite (index_of_NoDup 0 _ (length A) Hnd) by apply lookup_middle_len.
    rewrite (index_of_NoDup m _ (length A + S (length M)) Hnd)
      by apply lookup_second_len.
    simpl. rewrite decide_True by done. apply swap_cells_app_lt.
Qed.

Lemma manhattan_Board b :
  Board b → manhattan b = Some (sum_distances 0 b).
Proof. intros Hb. apply manhattan_sum, Board_range, Hb. Qed.

Lemma sum_distances_GOAL : sum_distances 0 GOAL = 0.
Proof. by vm_compute. Qed.

Lemma sum_distances_zero_GOAL b :
  Board b → sum_distances 0 b = 0 → b = GOAL.
Proof.
  intros Hb Hsum.
  pose proof (Board_range b Hb) as Hr. pose proof (Board_NoDup b Hb) as Hnd.
  destruct (length_9_explicit b (Board_length b Hb))
    as (a0 & a1 & a2 & a3 & a4 & a5 & a6 & a7 & a8 & ->).
  repeat (apply Forall_cons in Hr as [? Hr]).
  cbn [sum_distances] in Hsum.
  pose proof (tile_distance_nonneg 0 a0). pose proof (tile_distance_nonneg 1 a1).
  pose proof (tile_distance_nonneg 2 a2). pose proof (tile_distance_nonneg 3 a3).
  pose proof (tile_distance_nonneg 4 a4). pose proof (tile_distance_nonneg 5 a5).
  pose proof (tile_distance_nonneg 6 a6). pose proof (tile_distance_nonneg 7 a7).
  pose proof (tile_distance_nonneg 8 a8).
  assert (a8 = 0) as ->.
  { destruct (tile_distance_zero 8 a8); lia. }
  assert (∀ i a, [a0; a1; a2; a3; a4; a5; a6; a7; 0] !! i = Some a →
                 (i < 8)%nat → tile_distance i a = 0 →
                 a = Z.of_nat i + 1) as Hcell.
  { intros i a Hi Hlt Hd.
    assert (0 ≤ a ≤ 8) as Ha.
    { apply (Board_elem _ a Hb). by eapply list_elem_of_lookup_2. }
    destruct (tile_distance_zero i a) as [->|?]; [lia|done|done| |done].
    pose proof (NoDup_lookup _ i 8%nat 0 Hnd Hi eq_refl). lia. }
  unfold GOAL.
  rewrite (Hcell 0%nat a0), (Hcell 1%nat a1), (Hcell 2%nat a2),
    (Hcell 3%nat a3), (Hcell 4%nat a4), (Hcell 5%nat a5), (Hcell 6%nat a6),
    (Hcell 7%nat a7) by (done || lia).
  done.
Qed.

(** ** Replaying move lists *)

Lemma replay_app s ms1 ms2 :
  replay s (ms1 ++ ms2) = replay s ms1 ≫= λ t, replay t ms2.
Proof.
  revert s. induction ms1 as [|m ms1 IH]; intros s; simpl; [done|].
  destruct (apply_move_by_tile_value s m) as [s'|]; simpl; [apply IH|done].
Qed.

Lemma replay_snoc s ms t m u :
  replay s ms = Some t → apply_move_by_tile_value t m = Some u →
  replay s (ms ++ [m]) = Some u.
Proof. intros H1 H2. rewrite replay_app, H1. simpl. by rewrite H2. Qed.

Lemma replay_Board s ms t : Board s → replay s ms = Some t → Board t.
Proof.
  revert s. induction ms as [|m ms IH]; intros s Hb; simpl.
  - by intros [= <-].
  - destruct (apply_move_by_tile_value s m) as [s'|] eqn:Hm; simpl; [|done].
    apply IH. by eapply move_Board.
Qed.

Lemma replay_solvable s ms t :
  Board s → replay s ms = Some t → is_solvable_3x3 t = is_solvable_3x3 s.
Proof.
  revert s. induction ms as [|m ms IH]; intros s Hb; simpl.
  - by intros [= <-].
  - destruct (apply_move_by_tile_value s m) as [s'|] eqn:Hm; simpl; [|done].
    intros H. rewrite (IH s') by (done || by eapply move_Board).
    by eapply move_solvable.
Qed.

Lemma replay_distance s ms t :
  Board s → replay s ms = Some t →
  sum_distances 0 s ≤ Z.of_nat (length ms) + sum_distances 0 t.
Proof.
  revert s. induction ms as [|m ms IH]; intros s Hb; simpl length.
  - intros [= <-]. lia.
  - simpl. destruct (apply_move_by_tile_value s m) as [s'|] eqn:Hm; simpl;
      [|done].
    intros H. pose proof (move_distance s m s' Hb Hm).
    specialize (IH s' (move_Board s m s' Hb Hm) H). lia.
Qed.

Lemma replay_back s ms t :
  Board s → replay s ms = Some t → replay t (reverse ms) = Some s.
Proof.
  revert s. induction ms as [|m ms IH]; intros s Hb; simpl.
  - by intros [= <-].
  - destruct (apply_move_by_tile_value s m) as [s'|] eqn:Hm; simpl; [|done].
    intros H. rewrite reverse_cons.
    eapply replay_snoc; [by apply IH; [eapply move_Board|]|].
    by apply move_back.
Qed.

Lemma replay_trans s ms1 t ms2 u :
  replay s ms1 = Some t → replay t ms2 = Some u →
  replay s (ms1 ++ ms2) = Some u.
Proof. intros H1 H2. by rewrite replay_app, H1. Qed.

(** ** The heap *)

Lemma entry_lt_true_f a b : entry_lt a b = true → a.1.1 ≤ b.1.1.
Proof.
  destruct a as [[fa ga] sa], b as [[fb gb] sb]. simpl.
  destruct (Z.ltb_spec fa fb); [lia|].
  destruct (Z.ltb_spec fb fa); [done|]. lia.
Qed.

Lemma entry_lt_false_f a b : entry_lt a b = false → b.1.1 ≤ a.1.1.
Proof.
  destruct a as [[fa ga] sa], b as [[fb gb] sb]. simpl.
  destruct (Z.ltb_spec fa fb); [done|]. lia.
Qed.

Lemma heap_min_elem x h : heap_min x h ∈ x :: h.
Proof.
  revert x. induction h as [|y h IH]; intros x; simpl; [by left|].
  specialize (IH (if entry_lt y x then y else x)).
  apply elem_of_cons in IH as [->|IH].
  - destruct (entry_lt y x); [right; by left|by left].
  - by do 2 right.
Qed.

Lemma heap_min_least x h y : y ∈ x :: h → (heap_min x h).1.1 ≤ y.1.1.
Proof.
  revert x y. induction h as [|z h IH]; intros x y Hy; simpl.
  - apply elem_of_cons in Hy as [->|Hy]; [done|]. by apply elem_of_nil in Hy.
  - apply elem_of_cons in Hy as [->|Hy].
    + destruct (entry_lt z x) eqn:Hlt.
      * etrans; [apply (IH z z); by left|]. by apply entry_lt_true_f.
      * apply IH. by left.
    + apply elem_of_cons in Hy as [->|Hy].
      * destruct (entry_lt z x) eqn:Hlt.
        -- apply IH. by left.
        -- etrans; [apply (IH x x); by left|]. by apply entry_lt_false_f.
      * apply IH. by right.
Qed.

Lemma remove_first_Permutation x h : x ∈ h → h ≡ₚ x :: remove_first x h.
Proof.
  induction h as [|y h IH]; intros Hx; [by apply elem_of_nil in Hx|].
  simpl. destruct (decide (y = x)) as [->|Hne]; [done|].
  apply elem_of_cons in Hx as [->|Hx]; [done|].
  rewrite (IH Hx) at 1. apply perm_swap.
Qed.

Lemma heappop_None h : heappop h = None → h = [].
Proof. by destruct h. Qed.

Lemma heappop_Some h e h' :
  heappop h = Some (e, h') →
  h ≡ₚ e :: h' ∧ ∀ y, y ∈ h → e.1.1 ≤ y.1.1.
Proof.
  destruct h as [|x h]; [done|]. unfold heappop. intros [= <- <-].
  split.
  - apply remove_first_Permutation, heap_min_elem.
  - apply heap_min_least.
Qed.

(** ** The solver: what one relaxation does *)

Lemma relax_spec s g z nb st :
  Board s → index_of 0 s = Some z → nb ∈ neighbors z →
  ∃ v t, s !! nb = Some v ∧ swap_cells s z nb = Some t ∧
         apply_move_by_tile_value s v = Some t ∧
         relax s g z nb st = Some (relaxed s g v t st).
Proof.
  intros Hb Hz Hnb.
  destruct (neighbor_move s z nb Hb Hz Hnb) as (v & t & Hv & Ht & Hm).
  exists v, t. repeat split; try done.
  unfold relax, relaxed. rewrite Hv. simpl. rewrite Ht. simpl.
  destruct (g + 1 <? g_cost_get (g_cost st) t); [|done].
  rewrite (manhattan_Board t (move_Board s v t Hb Hm)). done.
Qed.

(** ** The solver: soundness invariant *)

Section solver.
Variable start : list Z.
Hypothesis start_Board : Board start.

Lemma sound_relaxed st s g v t :
  sound start st → g_cost st !! s = Some g → g + 1 ≤ expansions st →
  apply_move_by_tile_value s v = Some t →
  sound start (relaxed s g v t st) ∧ g_cost (relaxed s g v t st) !! s = Some g.
Proof.
  intros Hs Hg Hexp Hm. unfold relaxed.
  destruct (Z.ltb_spec (g + 1) (g_cost_get (g_cost st) t)) as [Hlt|_];
    [|done].
  destruct (sound_cost start st Hs s g Hg) as (Hbs & Hg0 & ms & Hlen & Hms).
  pose proof (move_Board s v t Hbs Hm) as Hbt.
  assert (t ≠ start) as Hts.
  { intros ->. unfold g_cost_get in Hlt.
    rewrite (sound_start start st Hs) in Hlt. simpl in Hlt. lia. }
  assert (t ≠ s) as Hne.
  { intros ->. unfold g_cost_get in Hlt. rewrite Hg in Hlt.
    simpl in Hlt. lia. }
  split; [|cbn [g_cost]; by rewrite lookup_insert_ne].
  split; cbn [g_cost parent open_heap expansions].
  - rewrite lookup_insert_ne by done. apply Hs.
  - rewrite lookup_insert_ne by done. apply Hs.
  - intros x gx Hx. destruct (decide (x = t)) as [->|Hxt].
    + rewrite lookup_insert_eq in Hx. injection Hx as <-.
      split; [done|]. split; [lia|]. exists (ms ++ [v]).
      split; [rewrite length_app; simpl; lia|by eapply replay_snoc].
    + rewrite lookup_insert_ne in Hx by done.
      apply (sound_cost start st Hs x gx Hx).
  - intros x gx Hx Hxs. destruct (decide (x = t)) as [->|Hxt].
    + rewrite lookup_insert_eq in Hx. injection Hx as <-.
      exists s, v, g. rewrite lookup_insert_eq.
      rewrite lookup_insert_ne by done. split_and!; (done || lia).
    + rewrite lookup_insert_ne in Hx by done.
      destruct (sound_parent start st Hs x gx Hx Hxs)
        as (p & m & gp & Hp & Hgp & Hlt' & Hmv).
      rewrite lookup_insert_ne by done.
      destruct (decide (p = t)) as [->|Hpt].
      * exists t, m, (g + 1). rewrite lookup_insert_eq.
        split_and!; try done.
        unfold g_cost_get in Hlt. rewrite Hgp in Hlt. simpl in Hlt. lia.
      * exists p, m, gp. rewrite lookup_insert_ne by done. done.
  - intros x pm Hx. destruct (decide (x = t)) as [->|Hxt].
    + rewrite lookup_insert_eq. eauto.
    + rewrite lookup_insert_ne in Hx by done.
      rewrite lookup_insert_ne by done.
      by eapply sound_parent_dom.
  - intros f g0 x Hin. apply elem_of_cons in Hin as [Heq|Hin].
    + injection Heq as -> -> ->. exists (g + 1).
      rewrite lookup_insert_eq. split_and!; (done || lia).
    + destruct (sound_heap start st Hs f g0 x Hin) as (g' & Hg' & Hle & Hf).
      destruct (decide (x = t)) as [->|Hxt].
      * exists (g + 1). rewrite lookup_insert_eq.
        split_and!; try done.
        unfold g_cost_get in Hlt. rewrite Hg' in Hlt. simpl in Hlt. lia.
      * exists g'. by rewrite lookup_insert_ne.
Qed.

Lemma relaxed_expansions st s g v t :
  expansions (relaxed s g v t st) = expansions st.
Proof. unfold relaxed. by destruct (_ <? _). Qed.

Lemma relaxed_heap_length st s g v t :
  (length (open_heap (relaxed s g v t st)) ≤ S (length (open_heap st)))%nat.
Proof. unfold relaxed. destruct (_ <? _); simpl; lia. Qed.

Lemma relax_all_sound s g z nbs st :
  sound start st → g_cost st !! s = Some g → g + 1 ≤ expansions st →
  index_of 0 s = Some z → nbs ⊆ neighbors z →
  ∃ st', relax_all s g z nbs st = Some st' ∧ sound start st' ∧
         g_cost st' !! s = Some g ∧ expansions st' = expansions st ∧
         (length (open_heap st')
          ≤ length nbs + length (open_heap st))%nat.
Proof.
  intros Hs Hg Hexp Hz. revert st Hs Hg Hexp.
  induction nbs as [|nb nbs IH]; intros st Hs Hg Hexp Hsub; simpl.
  - exists st. split_and!; done.
  - destruct (sound_cost start st Hs s g Hg) as (Hbs & _).
    destruct (relax_spec s g z nb st Hbs Hz) as (v & t & _ & _ & Hm & ->).
    { apply Hsub. by left. }
    simpl.
    destruct (sound_relaxed st s g v t Hs Hg Hexp Hm) as [Hs' Hg'].
    destruct (IH (relaxed s g v t st)) as (st' & Hr & Hs'' & Hg'' & He & Hl);
      try done.
    { by rewrite relaxed_expansions. }
    { intros x Hx. apply Hsub. by right. }
    exists st'. rewrite relaxed_expansions in He.
    pose proof (relaxed_heap_length st s g v t). split_and!; try done. lia.
Qed.

(** The walk along the parent links yields a move list that leads from
    [start] to the state the walk began at. *)
Lemma walk_spec st wfuel cur g acc :
  sound start st → g_cost st !! cur = Some g →
  match walk_parents wfuel (parent st) cur acc with
  | Some r => ∃ ms, r = acc ++ reverse ms ∧ replay start ms = Some cur ∧
                    Z.of_nat (length ms) ≤ g
  | None => Z.of_nat wfuel < g
  end.
Proof.
  intros Hs. revert cur g acc.
  induction wfuel as [|wfuel IH]; intros cur g acc Hg.
  - simpl. destruct (parent st !! cur) as [[prev moved]|] eqn:Hp.
    + assert (cur ≠ start) as Hne.
      { intros ->. by rewrite (sound_start_parent start st Hs) in Hp. }
      destruct (sound_parent start st Hs cur g Hg Hne)
        as (p & m & gp & _ & Hgp & Hlt & _).
      destruct (sound_cost start st Hs p gp Hgp) as (_ & ? & _). simpl. lia.
    + destruct (decide (cur = start)) as [->|Hne].
      * exists []. rewrite app_nil_r. split_and!; try done.
        destruct (sound_cost start st Hs start g Hg) as (_ & ? & _). simpl. lia.
      * destruct (sound_parent start st Hs cur g Hg Hne) as (p & m & gp & Hp' & _).
        congruence.
  - simpl. destruct (parent st !! cur) as [[prev moved]|] eqn:Hp.
    + assert (cur ≠ start) as Hne.
      { intros ->. by rewrite (sound_start_parent start st Hs) in Hp. }
      destruct (sound_parent start st Hs cur g Hg Hne)
        as (p & m & gp & Hp' & Hgp & Hlt & Hm).
      assert (p = prev ∧ m = moved) as [-> ->] by (split; congruence).
      specialize (IH prev gp (acc ++ [moved]) Hgp).
      destruct (walk_parents wfuel (parent st) prev (acc ++ [moved]))
        as [r|]; [|lia].
      destruct IH as (ms & -> & Hms & Hlen).
      exists (ms ++ [moved]). split_and!.
      * by rewrite reverse_app, <- app_assoc.
      * by eapply replay_snoc.
      * rewrite length_app. simpl. lia.
    + destruct (decide (cur = start)) as [->|Hne].
      * exists []. rewrite app_nil_r. split_and!; try done.
        destruct (sound_cost start st Hs start g Hg) as (_ & ? & _). simpl. lia.
      * destruct (sound_parent start st Hs cur g Hg Hne) as (p & m & gp & Hp' & _).
        congruence.
Qed.

Lemma neighbors_length z : (length (neighbors z) ≤ 4)%nat.
Proof.
  unfold neighbors.
  destruct (0 <? z / 3)%nat, (z / 3 <? 2)%nat, (0 <? z mod 3)%nat,
    (z mod 3 <? 2)%nat; simpl; lia.
Qed.

Variable wfuel : nat.
Variable max_expansions : Z.

Lemma step_spec st :
  sound start st → expansions st ≤ Z.max 0 max_expansions →
  match astar_step wfuel max_expansions st with
  | inl st' => sound start st' ∧ expansions st' ≤ Z.max 0 max_expansions ∧
               variant max_expansions st' < variant max_expansions st
  | inr (Moves ms) => replay start ms = Some GOAL
  | inr NoSolution => True
  | inr Raised => False
  | inr OutOfFuel => Z.of_nat wfuel < Z.max 0 max_expansions
  end.
Proof.
  intros Hs Hexp. unfold astar_step.
  destruct (heappop (open_heap st)) as [[[[f g] s] h']|] eqn:Hpop; [|done].
  apply heappop_Some in Hpop as [Hperm _].
  assert (length (open_heap st) = S (length h')) as Hlen by (by rewrite Hperm).
  assert (∀ e, e ∈ h' → e ∈ open_heap st) as Hsub.
  { intros e He. rewrite Hperm. by right. }
  destruct (sound_heap start st Hs f g s) as (g' & Hg' & Hle & Hf).
  { rewrite Hperm. by left. }
  destruct (decide (g ≠ g_cost_get (g_cost st) s)) as [Hstale|Hfresh].
  { split_and!; [|done|unfold variant; simpl; lia].
    destruct Hs as [H1 H2 H3 H4 H5 H6]. split; simpl; try done.
    intros f0 g0 s0 Hin. apply H6. by apply Hsub. }
  assert (g_cost st !! s = Some g) as Hg.
  { apply dec_stable in Hfresh. unfold g_cost_get in Hfresh.
    rewrite Hg' in Hfresh. simpl in Hfresh. by subst. }
  destruct (sound_cost start st Hs s g Hg) as (Hbs & Hg0 & _).
  destruct (decide (s = GOAL)) as [->|Hng].
  { pose proof (walk_spec st wfuel GOAL g [] Hs Hg) as Hw.
    destruct (walk_parents wfuel (parent st) GOAL []) as [r|]; [|lia].
    destruct Hw as (ms & -> & Hms & _). simpl.
    by rewrite reverse_involutive. }
  destruct (Z.ltb_spec max_expansions (expansions st + 1)) as [|Hbudget];
    [done|].
  destruct (Board_index_blank s Hbs) as (z & Hz & _ & _). rewrite Hz.
  set (st1 := AStarState h' (g_cost st) (parent st) (expansions st + 1)).
  assert (sound start st1) as Hs1.
  { destruct Hs as [H1 H2 H3 H4 H5 H6]. split; simpl; try done.
    - intros s0 g0 Hs0. destruct (H3 s0 g0 Hs0) as (? & ? & ?).
      split_and!; (done || lia).
    - intros f0 g0 s0 Hin. apply H6. by apply Hsub. }
  destruct (relax_all_sound s g z (neighbors z) st1 Hs1)
    as (st' & -> & Hs' & _ & He & Hl); try done.
  { simpl. lia. }
  pose proof (neighbors_length z). simpl in He, Hl.
  split_and!; [done|lia|]. unfold variant. rewrite He. lia.
Qed.

Lemma loop_sound fuel st ms :
  sound start st → expansions st ≤ Z.max 0 max_expansions →
  astar_loop fuel wfuel max_expansions st = Moves ms →
  replay start ms = Some GOAL.
Proof.
  revert st. induction fuel as [|fuel IH]; intros st Hs Hexp; simpl; [done|].
  pose proof (step_spec st Hs Hexp) as Hstep.
  destruct (astar_step wfuel max_expansions st) as [st'|[ms'| | |]].
  - destruct Hstep as (Hs' & Hexp' & _). by apply IH.
  - by intros [= <-].
  - done.
  - done.
  - done.
Qed.

Lemma loop_total fuel st :
  sound start st → expansions st ≤ Z.max 0 max_expansions →
  variant max_expansions st < Z.of_nat fuel → Z.max 0 max_expansions ≤ Z.of_nat wfuel →
  (∃ ms, astar_loop fuel wfuel max_expansions st = Moves ms) ∨
  astar_loop fuel wfuel max_expansions st = NoSolution.
Proof.
  intros Hs Hexp Hvar Hw. revert st Hs Hexp Hvar.
  induction fuel as [|fuel IH]; intros st Hs Hexp Hvar.
  - exfalso. unfold variant in Hvar. lia.
  - simpl. pose proof (step_spec st Hs Hexp) as Hstep.
    destruct (astar_step wfuel max_expansions st) as [st'|[ms'| | |]].
    + destruct Hstep as (Hs' & Hexp' & Hlt). apply IH; try done. lia.
    + left. eauto.
    + by right.
    + done.
    + lia.
Qed.
End solver.

(** ** The solver: the whole call *)

Lemma sound_initial start : Board start → sound start (initial_state start).
Proof.
  intros Hb. split; simpl.
  - apply lookup_singleton_eq.
  - apply lookup_empty.
  - intros s g Hs. apply lookup_singleton_Some in Hs as [<- <-].
    split_and!; try done. by exists [].
  - intros s g Hs Hne. apply lookup_singleton_Some in Hs as [<- <-]. done.
  - intros s pm Hs. by rewrite lookup_empty in Hs.
  - intros f g s Hin. apply list_elem_of_singleton in Hin as [= -> -> ->].
    exists 0. rewrite lookup_singleton_eq. split_and!; (done || lia).
Qed.

Lemma astar_solve_unfold fuel start max_expansions :
  Board start → start ≠ GOAL →
  astar_solve fuel start max_expansions
  = astar_loop fuel fuel max_expansions (initial_state start).
Proof.
  intros Hb Hne. unfold astar_solve. rewrite decide_False by done.
  by rewrite (manhattan_Board start Hb).
Qed.

(** A returned move list leads from [start] to [GOAL]. *)
Lemma astar_sound fuel start max_expansions ms :
  Board start → astar_solve fuel start max_expansions = Moves ms →
  replay start ms = Some GOAL.
Proof.
  intros Hb. destruct (decide (start = GOAL)) as [->|Hne].
  - unfold astar_solve. rewrite decide_True by done. by intros [= <-].
  - rewrite astar_solve_unfold by done.
    intros H. eapply (loop_sound start); [by apply sound_initial| |exact H].
    simpl. lia.
Qed.

(** With enough fuel the call returns: a move list or [None]. *)
Lemma astar_total fuel start max_expansions :
  Board start → (enough_fuel max_expansions ≤ fuel)%nat →
  (∃ ms, astar_solve fuel start max_expansions = Moves ms) ∨
  astar_solve fuel start max_expansions = NoSolution.
Proof.
  intros Hb Hfuel. unfold enough_fuel in Hfuel.
  destruct (decide (start = GOAL)) as [->|Hne].
  - left. exists []. unfold astar_solve. by rewrite decide_True.
  - rewrite astar_solve_unfold by done.
    apply (loop_total start); [by apply sound_initial|simpl; lia| |lia].
    unfold variant. simpl. lia.
Qed.

(** ** The solver: optimality invariant *)

Section optimality.
Variable start : list Z.
Hypothesis start_Board : Board start.

(** On every path from [start], either the end of the path is known at a
    cost no larger than the path, or some state on the heap promises a
    total that is no larger than the path allows. *)
Lemma open_on_path st ms t :
  sound start st → optimal start st → replay start ms = Some t →
  (∃ gt, g_cost st !! t = Some gt ∧ gt ≤ Z.of_nat (length ms)) ∨
  (∃ u gu, is_open st u gu ∧
           gu + sum_distances 0 u ≤ Z.of_nat (length ms) + sum_distances 0 t).
Proof.
  intros Hs Ho. revert t. induction ms as [|m ms IH] using rev_ind; intros t.
  - simpl. intros [= <-]. left. exists 0. split; [apply Hs|done].
  - rewrite replay_app. destruct (replay start ms) as [t'|] eqn:Hms; [|done].
    simpl. destruct (apply_move_by_tile_value t' m) as [t''|] eqn:Hm; [|done].
    simpl. intros [= ->].
    pose proof (replay_Board start ms t' start_Board Hms) as Hbt'.
    pose proof (move_distance t' m t Hbt' Hm) as Hd.
    rewrite length_app. simpl length.
    destruct (IH t' eq_refl) as [(gt' & Hgt' & Hle)|(u & gu & Hu & Hle)].
    + destruct (opt_open start st Ho t' gt' Hgt') as [Hop|[_ Hcl]].
      * right. exists t', gt'. split; [done|]. lia.
      * left. destruct (Hcl m t Hm) as (gt & Hgt & Hle'). exists gt.
        split; [done|]. lia.
    + right. exists u, gu. split; [done|]. lia.
Qed.

(** A fresh item at the top of the heap carries the least cost of its
    state. *)
Lemma popped_least st f g s h' ms :
  sound start st → optimal start st →
  heappop (open_heap st) = Some ((f, g, s), h') →
  g_cost st !! s = Some g → replay start ms = Some s →
  g ≤ Z.of_nat (length ms).
Proof.
  intros Hs Ho Hpop Hg Hms. apply heappop_Some in Hpop as [Hperm Hmin].
  destruct (sound_heap start st Hs f g s) as (g' & Hg' & _ & Hf).
  { rewrite Hperm. by left. }
  destruct (open_on_path st ms s Hs Ho Hms)
    as [(gt & Hgt & Hle)|(u & gu & Hu & Hle)].
  - congruence.
  - specialize (Hmin _ Hu). simpl in Hmin. lia.
Qed.

Lemma g_cost_get_Some gc s g : gc !! s = Some g → g_cost_get gc s = g.
Proof. unfold g_cost_get. by intros ->. Qed.

Lemma g_cost_get_None gc s : gc !! s = None → g_cost_get gc s = 1000000000.
Proof. unfold g_cost_get. by intros ->. Qed.

Lemma sound_popped st h' k :
  sound start st → (∀ e, e ∈ h' → e ∈ open_heap st) → 0 ≤ k →
  sound start (AStarState h' (g_cost st) (parent st) (expansions st + k)).
Proof.
  intros [H1 H2 H3 H4 H5 H6] Hsub Hk. split; simpl; try done.
  - intros s0 g0 Hs0. destruct (H3 s0 g0 Hs0) as (? & ? & ?).
    split_and!; (done || lia).
  - intros f0 g0 s0 Hin. apply H6. by apply Hsub.
Qed.

Lemma expanding_relaxed st s g cl v t :
  expanding start s g cl st → g + 1 ≤ expansions st → g + 1 < 1000000000 →
  apply_move_by_tile_value s v = Some t →
  expanding start s g cl (relaxed s g v t st) ∧
  (∃ gt, g_cost (relaxed s g v t st) !! t = Some gt ∧ gt ≤ g + 1) ∧
  (∀ y gy, g_cost st !! y = Some gy →
     ∃ gy', g_cost (relaxed s g v t st) !! y = Some gy' ∧ gy' ≤ gy).
Proof.
  intros He Hexp Hbig Hm.
  destruct (sound_relaxed start st s g v t (mid_sound _ _ _ _ _ He)
              (mid_cost _ _ _ _ _ He) Hexp Hm) as [Hs' Hg'].
  pose proof (mid_sound _ _ _ _ _ He) as Hs.
  pose proof (mid_cost _ _ _ _ _ He) as Hg.
  unfold relaxed in *.
  destruct (Z.ltb_spec (g + 1) (g_cost_get (g_cost st) t)) as [Hlt|Hge].
  - assert (t ≠ s) as Hne.
    { intros ->. rewrite (g_cost_get_Some _ _ _ Hg) in Hlt. lia. }
    split_and!.
    + split; cbn [g_cost parent open_heap expansions].
      * exact Hs'.
      * exact Hg'.
      * apply NoDup_cons. split; [|apply He].
        intros Hin. destruct (sound_heap start st Hs _ _ _ Hin)
          as (g' & Hg'' & Hle & _).
        rewrite (g_cost_get_Some _ _ _ Hg'') in Hlt. lia.
      * intros x gx Hx Hxs. destruct (decide (x = t)) as [->|Hxt].
        -- rewrite lookup_insert_eq in Hx. injection Hx as <-.
           left. unfold is_open. cbn. by left.
        -- rewrite lookup_insert_ne in Hx by done.
           destruct (mid_open _ _ _ _ _ He x gx Hx Hxs) as [Hop|[Hng Hcl]].
           ++ left. unfold is_open. cbn. by right.
           ++ right. split; [done|]. intros m' t' Hm'.
              destruct (Hcl m' t' Hm') as (gt & Hgt & Hle). cbn.
              destruct (decide (t' = t)) as [->|Htt].
              ** exists (g + 1). rewrite lookup_insert_eq. split; [done|].
                 rewrite (g_cost_get_Some _ _ _ Hgt) in Hlt. lia.
              ** exists gt. by rewrite lookup_insert_ne.
      * intros x Hx.
        destruct (mid_settled _ _ _ _ _ He x Hx) as (gx & Hgx & Hopt & Hnot).
        assert (x ≠ t) as Hxt.
        { intros ->. rewrite (g_cost_get_Some _ _ _ Hgx) in Hlt.
          destruct (sound_cost start st Hs s g Hg) as (_ & _ & ms & Hlen & Hms).
          pose proof (Hopt (ms ++ [v]) (replay_snoc _ _ _ _ _ Hms Hm)) as Hle.
          rewrite length_app in Hle. simpl in Hle. lia. }
        exists gx. cbn [g_cost open_heap].
        split_and!; [by rewrite lookup_insert_ne|done|].
        intros f Hin. apply elem_of_cons in Hin as [Heq|Hin].
        -- injection Heq as _ _ ->. done.
        -- by apply (Hnot f).
    + exists (g + 1). cbn. rewrite lookup_insert_eq. split; [done|lia].
    + intros y gy Hy. cbn. destruct (decide (y = t)) as [->|Hyt].
      * exists (g + 1). rewrite lookup_insert_eq. split; [done|].
        rewrite (g_cost_get_Some _ _ _ Hy) in Hlt. lia.
      * exists gy. rewrite lookup_insert_ne by done. split; [done|lia].
  - split_and!; [done| |].
    + destruct (g_cost st !! t) as [gt|] eqn:Hgt.
      * rewrite (g_cost_get_Some _ _ _ Hgt) in Hge. eauto.
      * rewrite (g_cost_get_None _ _ Hgt) in Hge. lia.
    + intros y gy Hy. exists gy. split; [done|lia].
Qed.

Lemma relax_all_expanding st s g cl z nbs :
  expanding start s g cl st → g + 1 ≤ expansions st → g + 1 < 1000000000 →
  index_of 0 s = Some z → nbs ⊆ neighbors z →
  ∃ st', relax_all s g z nbs st = Some st' ∧ expanding start s g cl st' ∧
         expansions st' = expansions st ∧
         (∀ y gy, g_cost st !! y = Some gy →
            ∃ gy', g_cost st' !! y = Some gy' ∧ gy' ≤ gy) ∧
         (∀ nb t, nb ∈ nbs → swap_cells s z nb = Some t →
            ∃ gt, g_cost st' !! t = Some gt ∧ gt ≤ g + 1).
Proof.
  intros He Hexp Hbig Hz. revert st He Hexp.
  induction nbs as [|nb nbs IH]; intros st He Hexp Hsub; simpl.
  - exists st. split_and!; try done.
    + intros y gy Hy. exists gy. split; [done|lia].
    + intros nb t Hin. by apply elem_of_nil in Hin.
  - pose proof (mid_sound _ _ _ _ _ He) as Hs.
    destruct (sound_cost start st Hs s g (mid_cost _ _ _ _ _ He)) as (Hbs & _).
    destruct (relax_spec s g z nb st Hbs Hz) as (v & t & _ & Hsw & Hm & ->).
    { apply Hsub. by left. }
    simpl.
    destruct (expanding_relaxed st s g cl v t He Hexp Hbig Hm)
      as (He1 & (gt & Hgt & Hle) & Hmono1).
    destruct (IH (relaxed s g v t st)) as (st' & Hr & He' & Hx & Hmono2 & Hall);
      try done.
    { by rewrite relaxed_expansions. }
    { intros x Hx. apply Hsub. by right. }
    exists st'. rewrite relaxed_expansions in Hx. split_and!; try done.
    + intros y gy Hy. destruct (Hmono1 y gy Hy) as (gy1 & Hy1 & Hle1).
      destruct (Hmono2 y gy1 Hy1) as (gy2 & Hy2 & Hle2).
      exists gy2. split; [done|lia].
    + intros nb' t' Hin Hsw'. apply elem_of_cons in Hin as [->|Hin].
      * assert (t' = t) as -> by congruence.
        destruct (Hmono2 t gt Hgt) as (gt2 & Hgt2 & Hle2).
        exists gt2. split; [done|lia].
      * by eapply Hall.
Qed.

Variable wfuel : nat.
Variable max_expansions : Z.
Hypothesis budget_small : max_expansions < 1000000000.

Lemma step_optimal st :
  sound start st → optimal start st →
  match astar_step wfuel max_expansions st with
  | inl st' => optimal start st'
  | inr (Moves ms) =>
      ∀ ms', replay start ms' = Some GOAL → (length ms ≤ length ms')%nat
  | inr _ => True
  end.
Proof.
  intros Hs Ho. unfold astar_step.
  destruct (heappop (open_heap st)) as [[[[f g] s] h']|] eqn:Hpop; [|done].
  destruct (heappop_Some _ _ _ Hpop) as [Hperm Hmin].
  assert (∀ e, e ∈ h' → e ∈ open_heap st) as Hsub.
  { intros e He. rewrite Hperm. by right. }
  pose proof (opt_nodup start st Ho) as Hnd. rewrite Hperm in Hnd.
  apply NoDup_cons in Hnd as [Hnotin Hnd'].
  destruct (sound_heap start st Hs f g s) as (g' & Hg' & Hle & Hf).
  { rewrite Hperm. by left. }
  destruct (opt_settled start st Ho) as (cl & Hcl_nd & Hcl_len & Hcl).
  destruct (decide (g ≠ g_cost_get (g_cost st) s)) as [Hstale|Hfresh].
  { split; cbn [g_cost parent open_heap expansions].
    - done.
    - intros x gx Hx. destruct (opt_open start st Ho x gx Hx) as [Hop|Hc].
      + left. unfold is_open in *. cbn. rewrite Hperm in Hop.
        apply elem_of_cons in Hop as [Heq|Hop]; [|done].
        injection Heq as _ -> ->.
        rewrite (g_cost_get_Some _ _ _ Hx) in Hstale. done.
      + by right.
    - exists cl. split_and!; try done. intros x Hx.
      destruct (Hcl x Hx) as (gx & Hgx & Hopt & Hnot).
      exists gx. cbn. split_and!; try done.
      intros f0 Hin. apply (Hnot f0). by apply Hsub. }
  assert (g_cost st !! s = Some g) as Hg.
  { apply dec_stable in Hfresh.
    rewrite (g_cost_get_Some _ _ _ Hg') in Hfresh. by subst. }
  destruct (sound_cost start st Hs s g Hg) as (Hbs & Hg0 & _).
  assert (∀ ms, replay start ms = Some s → g ≤ Z.of_nat (length ms)) as Hleast.
  { intros ms Hms. by eapply popped_least. }
  destruct (decide (s = GOAL)) as [->|Hng].
  { pose proof (walk_spec start st wfuel GOAL g [] Hs Hg) as Hw.
    destruct (walk_parents wfuel (parent st) GOAL []) as [r|]; [|done].
    destruct Hw as (ms & -> & Hms & Hlen). simpl. rewrite reverse_involutive.
    intros ms' Hms'. specialize (Hleast ms' Hms'). lia. }
  destruct (Z.ltb_spec max_expansions (expansions st + 1)) as [|Hbudget];
    [done|].
  destruct (Board_index_blank s Hbs) as (z & Hz & _ & _). rewrite Hz.
  set (st1 := AStarState h' (g_cost st) (parent st) (expansions st + 1)).
  assert (s ∉ cl) as Hscl.
  { intros Hin. destruct (Hcl s Hin) as (g0 & Hg0' & _ & Hnot).
    assert (g0 = g) as -> by congruence.
    apply (Hnot f). rewrite Hperm. by left. }
  assert (expanding start s g (s :: cl) st1) as He.
  { split; cbn [g_cost parent open_heap expansions st1].
    - apply sound_popped; (done || lia).
    - done.
    - done.
    - intros x gx Hx Hxs. destruct (opt_open start st Ho x gx Hx) as [Hop|Hc].
      + left. unfold is_open in *. cbn. rewrite Hperm in Hop.
        apply elem_of_cons in Hop as [Heq|Hop]; [|done].
        by injection Heq as _ _ ->.
      + by right.
    - intros x Hx. cbn. apply elem_of_cons in Hx as [->|Hx].
      + exists g. split_and!; try done. intros f0 Hin.
        destruct (sound_heap start st Hs f0 g s (Hsub _ Hin))
          as (_ & _ & _ & ->).
        apply Hnotin. by rewrite Hf.
      + destruct (Hcl x Hx) as (gx & Hgx & Hopt & Hnot).
        exists gx. split_and!; try done.
        intros f0 Hin. apply (Hnot f0). by apply Hsub. }
  destruct (relax_all_expanding st1 s g (s :: cl) z (neighbors z) He)
    as (st' & -> & He' & Hx' & _ & Hall); try done.
  { simpl. lia. }
  { simpl in *. lia. }
  split.
  - apply He'.
  - intros x gx Hx. destruct (decide (x = s)) as [->|Hxs].
    + right. assert (gx = g) as ->.
      { pose proof (mid_cost _ _ _ _ _ He'). congruence. }
      split; [done|]. intros m t Hm.
      destruct (apply_move_inv s m t Hm) as (z' & nb & Hz' & _ & Hnb & Hsw).
      assert (z' = z) as -> by congruence. by eapply Hall.
    + by apply (mid_open _ _ _ _ _ He').
  - exists (s :: cl). split_and!.
    + by apply NoDup_cons.
    + rewrite Hx'. simpl length. cbn [expansions st1]. lia.
    + apply He'.
Qed.

(** When the goal can be reached and the budget covers every state that
    can be reached, no iteration gives up. *)
Hypothesis goal_reachable : ∃ ms, replay start ms = Some GOAL.
Hypothesis budget_covers : ∀ l : list (list Z),
  NoDup l → (∀ b, b ∈ l → ∃ ms, replay start ms = Some b) →
  Z.of_nat (length l) ≤ max_expansions.

Lemma step_progress st :
  sound start st → optimal start st →
  astar_step wfuel max_expansions st ≠ inr NoSolution.
Proof.
  intros Hs Ho. unfold astar_step.
  destruct (heappop (open_heap st)) as [[[[f g] s] h']|] eqn:Hpop.
  - destruct (heappop_Some _ _ _ Hpop) as [Hperm Hmin].
    destruct (sound_heap start st Hs f g s) as (g' & Hg' & Hle & Hf).
    { rewrite Hperm. by left. }
    destruct (decide (g ≠ g_cost_get (g_cost st) s)) as [Hstale|Hfresh];
      [done|].
    assert (g_cost st !! s = Some g) as Hg.
    { apply dec_stable in Hfresh.
      rewrite (g_cost_get_Some _ _ _ Hg') in Hfresh. by subst. }
    destruct (sound_cost start st Hs s g Hg) as (Hbs & Hg0 & _).
    destruct (decide (s = GOAL)) as [->|Hng].
    { by destruct (walk_parents wfuel (parent st) GOAL []). }
    destruct (Z.ltb_spec max_expansions (expansions st + 1)) as [Hover|_].
    + exfalso.
      destruct (opt_settled start st Ho) as (cl & Hcl_nd & Hcl_len & Hcl).
      assert (s ∉ cl) as Hscl.
      { intros Hin. destruct (Hcl s Hin) as (g0 & Hg0' & _ & Hnot).
        assert (g0 = g) as -> by congruence.
        apply (Hnot f). rewrite Hperm. by left. }
      assert (Z.of_nat (length (s :: cl)) ≤ max_expansions) as Hb.
      { apply budget_covers; [by apply NoDup_cons|].
        intros b Hb. apply elem_of_cons in Hb as [->|Hb].
        - destruct (sound_cost start st Hs s g Hg) as (_ & _ & ms & _ & Hms).
          eauto.
        - destruct (Hcl b Hb) as (gb & Hgb & _).
          destruct (sound_cost start st Hs b gb Hgb) as (_ & _ & ms & _ & Hms).
          eauto. }
      simpl length in Hb. lia.
    + destruct (index_of 0 s); [|done].
      by destruct (relax_all _ _ _ _ _).
  - exfalso. apply heappop_None in Hpop.
    destruct goal_reachable as [ms Hms].
    destruct (open_on_path st ms GOAL Hs Ho Hms)
      as [(gt & Hgt & _)|(u & gu & Hu & _)].
    + destruct (opt_open start st Ho GOAL gt Hgt) as [Hop|[Hne _]]; [|done].
      unfold is_open in Hop. rewrite Hpop in Hop. by apply elem_of_nil in Hop.
    + unfold is_open in Hu. rewrite Hpop in Hu. by apply elem_of_nil in Hu.
Qed.

Lemma loop_optimal fuel st :
  sound start st → optimal start st →
  expansions st ≤ Z.max 0 max_expansions →
  variant max_expansions st < Z.of_nat fuel →
  Z.max 0 max_expansions ≤ Z.of_nat wfuel →
  ∃ ms, astar_loop fuel wfuel max_expansions st = Moves ms ∧
        replay start ms = Some GOAL ∧
        ∀ ms', replay start ms' = Some GOAL → (length ms ≤ length ms')%nat.
Proof.
  intros Hs Ho Hexp Hvar Hw. revert st Hs Ho Hexp Hvar.
  induction fuel as [|fuel IH]; intros st Hs Ho Hexp Hvar.
  - exfalso. unfold variant in Hvar. lia.
  - simpl. pose proof (step_spec start wfuel max_expansions st Hs Hexp) as H1.
    pose proof (step_optimal st Hs Ho) as H2.
    pose proof (step_progress st Hs Ho) as H3.
    destruct (astar_step wfuel max_expansions st) as [st'|[ms'| | |]].
    + destruct H1 as (Hs' & Hexp' & Hlt). apply IH; try done. lia.
    + exists ms'. done.
    + done.
    + done.
    + lia.
Qed.
End optimality.

(** ** Reachability of the goal

    Every solvable Board can be brought to [GOAL] in two stages: first the
    top row is put in place (a search over the positions of the blank and of
    the tiles 1, 2, 3 only), then the lower two rows are solved without
    touching the top row. *)

(** The search of stage 1 finds every arrangement of the blank and the
    tiles 1, 2, 3. *)
Lemma abstract_check_true :
  forallb (λ t, PositiveSet.mem (encode t) seen_abstract) abstract_states
  = true.
Proof. by vm_compute. Qed.

(** The search of stage 2 finds every solvable arrangement of the lower
    rows. *)
Lemma lower_check_true :
  forallb (λ t, implb (is_solvable_3x3 ([1; 2; 3] ++ t))
                  (PositiveSet.mem (encode ([1; 2; 3] ++ t)) seen_lower))
    (permutations [0; 4; 5; 6; 7; 8])
  = true.
Proof. by vm_compute. Qed.

Lemma bfs_visit_sound R acc t :
  R t → Forall R acc.1 → covered R acc.2 →
  Forall R (bfs_visit acc t).1 ∧ covered R (bfs_visit acc t).2.
Proof.
  intros Ht Hf Hc. unfold bfs_visit.
  destruct (PositiveSet.mem (encode t) acc.2); [done|]. simpl. split.
  - by constructor.
  - intros c Hin. apply PositiveSet.add_spec in Hin as [->|Hin]; [eauto|].
    by apply Hc.
Qed.

Lemma fold_visit_sound R ts acc :
  Forall R ts → Forall R acc.1 → covered R acc.2 →
  Forall R (fold_left bfs_visit ts acc).1 ∧
  covered R (fold_left bfs_visit ts acc).2.
Proof.
  intros Hts. revert acc. induction Hts as [|t ts Ht _ IH]; intros acc Hf Hc.
  - done.
  - simpl. destruct (bfs_visit_sound R acc t Ht Hf Hc). by apply IH.
Qed.

Lemma bfs_layer_sound R next frontier acc :
  (∀ s t, R s → t ∈ next s → R t) →
  Forall R frontier → Forall R acc.1 → covered R acc.2 →
  Forall R (bfs_layer next frontier acc).1 ∧
  covered R (bfs_layer next frontier acc).2.
Proof.
  intros Hnext Hfr. revert acc.
  induction Hfr as [|b frontier Hb _ IH]; intros acc Hf Hc.
  - done.
  - unfold bfs_layer. simpl.
    destruct (fold_visit_sound R (next b) acc) as [Hf' Hc']; try done.
    { apply Forall_forall. intros t Ht. by eapply Hnext. }
    by apply IH.
Qed.

Lemma bfs_sound R next fuel frontier visited :
  (∀ s t, R s → t ∈ next s → R t) →
  Forall R frontier → covered R visited →
  covered R (bfs next fuel frontier visited).
Proof.
  intros Hnext. revert frontier visited.
  induction fuel as [|fuel IH]; intros frontier visited Hfr Hc; [done|].
  simpl.
  destruct (bfs_layer_sound R next frontier ([], visited) Hnext Hfr)
    as [Hf' Hc']; [done|done|].
  by apply IH.
Qed.

Lemma codes_covered R l : Forall R l → covered R (codes l).
Proof.
  induction 1 as [|t l Ht _ IH]; intros c Hc; simpl in Hc.
  - by apply PositiveSet.empty_spec in Hc.
  - apply PositiveSet.add_spec in Hc as [->|Hc]; [eauto|]. by apply IH.
Qed.

Lemma covered_mem R visited b :
  covered R visited → PositiveSet.mem (encode b) visited = true → R b.
Proof.
  intros Hc Hm. apply PositiveSet.mem_spec in Hm.
  destruct (Hc _ Hm) as (b' & Hb' & Heq). by apply (inj encode) in Heq as ->.
Qed.

Lemma forallb_mem_covered R visited l :
  covered R visited →
  forallb (λ t, PositiveSet.mem (encode t) visited) l = true →
  ∀ t, t ∈ l → R t.
Proof.
  intros Hc Hall t Ht. rewrite forallb_forall in Hall.
  apply list_elem_of_In in Ht. by apply (covered_mem R visited t Hc), Hall.
Qed.

Lemma forallb_solvable_covered R visited pre l :
  covered R visited →
  forallb (λ t, implb (is_solvable_3x3 (pre ++ t))
                  (PositiveSet.mem (encode (pre ++ t)) visited)) l = true →
  ∀ t, t ∈ l → is_solvable_3x3 (pre ++ t) = true → R (pre ++ t).
Proof.
  intros Hc Hall t Ht Hsol. rewrite forallb_forall in Hall.
  apply list_elem_of_In in Ht. specialize (Hall t Ht).
  rewrite Hsol in Hall. by apply (covered_mem R visited _ Hc).
Qed.

Lemma elem_of_successors s t :
  t ∈ successors s ↔
  ∃ z nb, index_of 0 s = Some z ∧ nb ∈ neighbors z ∧
          swap_cells s z nb = Some t.
Proof.
  unfold successors. split.
  - destruct (index_of 0 s) as [z|]; [|intros H; by apply elem_of_nil in H].
    intros (nb & Hnb & Hsw)%list_elem_of_omap. by exists z, nb.
  - intros (z & nb & -> & Hnb & Hsw). apply list_elem_of_omap. by exists nb.
Qed.

(** *** Stage 2: the lower rows *)

Lemma reaches_goal_successor s t :
  reaches_goal s → t ∈ successors s → reaches_goal t.
Proof.
  intros [Hb [ms Hms]] (z & nb & Hz & Hnb & Hsw)%elem_of_successors.
  destruct (neighbor_move s z nb Hb Hz Hnb) as (v & t' & _ & Hsw' & Hm).
  assert (t' = t) as -> by congruence.
  split; [by eapply move_Board|]. exists (v :: ms). simpl.
  by rewrite (move_back s v t Hb Hm).
Qed.

Lemma seen_lower_covered : covered reaches_goal seen_lower.
Proof.
  assert (reaches_goal GOAL) as Hg.
  { split; [apply Board_GOAL|by exists []]. }
  apply bfs_sound.
  - intros s t Hs [_ Ht]%list_elem_of_filter.
    by eapply reaches_goal_successor.
  - by constructor.
  - apply codes_covered. by constructor.
Qed.

Lemma top_solved_inv b : top_solved b = true → ∃ t, b = [1; 2; 3] ++ t.
Proof.
  intros H. apply bool_decide_eq_true in H. exists (drop 3 b).
  rewrite <- H. by rewrite take_drop.
Qed.

Lemma top_solved_reaches_goal b :
  Board b → top_solved b = true → is_solvable_3x3 b = true →
  ∃ ms, replay b ms = Some GOAL.
Proof.
  intros Hb Htop Hsol. destruct (top_solved_inv b Htop) as [t ->].
  assert (t ∈ permutations [0; 4; 5; 6; 7; 8]) as Hin.
  { apply permutations_Permutation. unfold Board in Hb.
    apply (Permutation_cons_inv (a := 3)), (Permutation_cons_inv (a := 2)),
      (Permutation_cons_inv (a := 1)).
    simpl in Hb. rewrite Hb. apply (bool_decide_unpack _). by vm_compute. }
  exact (proj2 (forallb_solvable_covered reaches_goal seen_lower [1; 2; 3]
                  (permutations [0; 4; 5; 6; 7; 8]) seen_lower_covered
                  lower_check_true t Hin Hsol)).
Qed.

(** *** Stage 1: the top row *)

Lemma abstract_tile_small v k : abstract_tile v = k → k < 4 → v = k.
Proof. unfold abstract_tile. destruct (decide (4 ≤ v)); lia. Qed.

Lemma swap_cells_fmap (f : Z → Z) (s : list Z) z nb :
  swap_cells (f <$> s) z nb = fmap (M := list) f <$> swap_cells s z nb.
Proof.
  unfold swap_cells. rewrite !list_lookup_fmap.
  destruct (s !! nb); simpl; [|done]. destruct (s !! z); simpl; [|done].
  by rewrite !list_fmap_insert.
Qed.

Lemma swap_cells_length s z nb t :
  swap_cells s z nb = Some t → length t = length s.
Proof.
  unfold swap_cells. destruct (s !! nb); simpl; [|done].
  destruct (s !! z); simpl; [|done]. intros [= <-].
  by rewrite !length_insert.
Qed.

Lemma swap_cells_back s z nb t :
  s !! z = Some 0 → z ≠ nb → swap_cells s z nb = Some t →
  swap_cells t nb z = Some s ∧ t !! nb = Some 0.
Proof.
  intros Hz Hne Hsw.
  assert (∃ v, s !! nb = Some v) as [v Hv].
  { unfold swap_cells in Hsw. destruct (s !! nb); [eauto|done]. }
  destruct (swap_cells_shape s z nb v Hz Hv Hne) as (t' & Ht' & Hsh).
  assert (t' = t) as -> by congruence.
  destruct Hsh as [A M C -> -> <- <-|A M C -> -> <- <-].
  - split; [apply swap_cells_app_gt|apply lookup_second_len].
  - split; [apply swap_cells_app_lt|apply lookup_middle_len].
Qed.

Lemma reaches_top_successor s t :
  reaches_top s → t ∈ successors s → reaches_top t.
Proof.
  intros Hs (z & nb & Hz & Hnb & Hsw)%elem_of_successors b' Hb' Hab.
  pose proof (index_of_Some _ _ _ Hz) as Hlz.
  assert (z < 9)%nat as Hz9.
  { apply lookup_lt_Some in Hlz.
    rewrite <- (swap_cells_length _ _ _ _ Hsw), <- Hab, length_fmap in Hlz.
    by rewrite (Board_length b' Hb') in Hlz. }
  destruct (neighbors_sym z nb Hz9 Hnb) as (Hnb9 & Hne & Hsym).
  destruct (swap_cells_back s z nb t Hlz) as [Hback Hblank]; [done|done|].
  assert (b' !! nb = Some 0) as Hb0.
  { rewrite <- Hab, list_lookup_fmap in Hblank.
    destruct (b' !! nb) as [v|]; [|done]. simpl in Hblank.
    injection Hblank as Hv. by rewrite (abstract_tile_small v 0 Hv). }
  pose proof (index_of_NoDup 0 b' nb (Board_NoDup b' Hb') Hb0) as Hi.
  destruct (neighbor_move b' nb z Hb' Hi Hsym) as (v & b & _ & Hswb & Hm).
  pose proof (swap_cells_fmap abstract_tile b' nb z) as Hf.
  rewrite Hab, Hback, Hswb in Hf. simpl in Hf. injection Hf as Hf.
  destruct (Hs b (move_Board b' v b Hb' Hm) (eq_sym Hf))
    as (ms & b'' & Hms & Htop).
  exists (v :: ms), b''. simpl. by rewrite Hm.
Qed.

Lemma reaches_top_solved x : reaches_top ([1; 2; 3] ++ x).
Proof.
  intros b Hb Hab. exists [], b. split; [done|].
  destruct b as [|b0 [|b1 [|b2 b]]]; try discriminate Hab.
  simpl in Hab. injection Hab as H0 H1 H2 _.
  rewrite (abstract_tile_small b0 1 H0), (abstract_tile_small b1 2 H1),
    (abstract_tile_small b2 3 H2) by lia.
  done.
Qed.

Lemma seen_abstract_covered : covered reaches_top seen_abstract.
Proof.
  assert (Forall reaches_top top_seeds) as Hseeds.
  { apply Forall_forall. intros t (x & -> & _)%list_elem_of_fmap.
    apply reaches_top_solved. }
  apply bfs_sound; [apply reaches_top_successor|done|].
  by apply codes_covered.
Qed.

Lemma place_complete x ls t l :
  t ≡ₚ x :: l → (∀ t0, t0 ≡ₚ l → t0 ∈ ls) → t ∈ place x ls.
Proof.
  intros Hp Hls. assert (x ∈ t) as Hx by (rewrite Hp; by left).
  destruct (list_elem_of_split t x Hx) as (l1 & l2 & ->).
  unfold place. apply list_elem_of_bind. exists (l1 ++ l2). split.
  - apply elem_of_interleave. by exists l1, l2.
  - apply Hls. rewrite <- Permutation_middle in Hp.
    by apply Permutation_cons_inv in Hp.
Qed.

Lemma abstract_states_complete b :
  Board b → abstract_tile <$> b ∈ abstract_states.
Proof.
  intros Hb.
  assert (abstract_tile <$> b ≡ₚ [0; 1; 2; 3; 9; 9; 9; 9; 9]) as Hp.
  { unfold Board in Hb. by rewrite Hb. }
  unfold abstract_states.
  eapply place_complete; [exact Hp|]. intros t1 H1.
  eapply place_complete; [exact H1|]. intros t2 H2.
  eapply place_complete; [exact H2|]. intros t3 H3.
  eapply place_complete; [exact H3|]. intros t4 H4.
  apply list_elem_of_singleton. symmetry.
  apply (replicate_Permutation 5 9). by symmetry.
Qed.

(** Every Board can be brought to a Board with the top row in place. *)
Lemma Board_reaches_top b :
  Board b → ∃ ms b', replay b ms = Some b' ∧ top_solved b' = true.
Proof.
  intros Hb.
  exact (forallb_mem_covered reaches_top seen_abstract abstract_states
           seen_abstract_covered abstract_check_true (abstract_tile <$> b)
           (abstract_states_complete b Hb) b Hb eq_refl).
Qed.

(** Every solvable Board can be brought to [GOAL]. *)
Lemma solvable_reaches_goal b :
  Board b → is_solvable_3x3 b = true → ∃ ms, replay b ms = Some GOAL.
Proof.
  intros Hb Hsol. destruct (Board_reaches_top b Hb) as (ms1 & b1 & Hms1 & Htop).
  pose proof (replay_Board b ms1 b1 Hb Hms1) as Hb1.
  pose proof (replay_solvable b ms1 b1 Hb Hms1) as Hsol1.
  rewrite Hsol in Hsol1.
  destruct (top_solved_reaches_goal b1 Hb1 Htop Hsol1) as [ms2 Hms2].
  exists (ms1 ++ ms2). by eapply replay_trans.
Qed.

(** ** The number of solvable Boards *)

Lemma solvable_boards_length : Z.of_nat (length solvable_boards) = 181440.
Proof. by vm_compute. Qed.

Lemma solvable_boards_bound (l : list (list Z)) :
  NoDup l → (∀ b, b ∈ l → Board b ∧ is_solvable_3x3 b = true) →
  Z.of_nat (length l) ≤ 181440.
Proof.
  intros Hnd Hl. rewrite <- solvable_boards_length.
  apply inj_le, submseteq_length, NoDup_submseteq; [done|].
  intros b Hb. destruct (Hl b Hb) as [HB Hsol].
  apply list_elem_of_filter. split; [done|].
  apply permutations_Permutation. by symmetry.
Qed.

(** ** The solver finds a shortest move list *)

Lemma optimal_initial start : optimal start (initial_state start).
Proof.
  split; simpl.
  - apply NoDup_singleton.
  - intros s g Hs. apply lookup_singleton_Some in Hs as [<- <-].
    left. unfold is_open. simpl. by left.
  - exists []. split_and!; [constructor|done|].
    intros s Hs. by apply elem_of_nil in Hs.
Qed.

Lemma astar_optimal fuel start max_expansions :
  Board start → is_solvable_3x3 start = true →
  181440 ≤ max_expansions < 1000000000 →
  (enough_fuel max_expansions ≤ fuel)%nat →
  ∃ ms, astar_solve fuel start max_expansions = Moves ms ∧
        replay start ms = Some GOAL ∧
        ∀ ms', replay start ms' = Some GOAL → (length ms ≤ length ms')%nat.
Proof.
  intros Hb Hsol Hmax Hfuel. unfold enough_fuel in Hfuel.
  destruct (decide (start = GOAL)) as [->|Hne].
  - exists []. unfold astar_solve. rewrite decide_True by done.
    split_and!; [done|done|]. intros ms' _. simpl. lia.
  - rewrite astar_solve_unfold by done.
    apply (loop_optimal start Hb).
    + lia.
    + by apply solvable_reaches_goal.
    + intros l Hnd Hl. etrans; [|apply Hmax].
      apply solvable_boards_bound; [done|].
      intros b Hin. destruct (Hl b Hin) as [ms Hms]. split.
      * by eapply replay_Board.
      * by rewrite (replay_solvable start ms b Hb Hms).
    + by apply sound_initial.
    + apply optimal_initial.
    + simpl. lia.
    + unfold variant. simpl. lia.
    + lia.
Qed.

(** ** Legal moves *)

Lemma apply_move_legal s m t :
  apply_move_by_tile_value s m = Some t → legal_move s m.
Proof.
  intros (z & nb & Hz & Hi & Hnb & _)%apply_move_inv. by exists z, nb.
Qed.

Lemma legal_move_apply s m :
  Board s → legal_move s m → ∃ t, apply_move_by_tile_value s m = Some t.
Proof.
  intros Hb (z & nb & Hz & Hi & Hnb).
  destruct (neighbor_move s z nb Hb Hz Hnb) as (v & t & Hv & _ & Hm).
  rewrite (index_of_Some _ _ _ Hi) in Hv. injection Hv as <-. eauto.
Qed.

Lemma replay_moves_legal s ms t : replay s ms = Some t → moves_legal s ms.
Proof.
  revert s. induction ms as [|m ms IH]; intros s; simpl; [done|].
  destruct (apply_move_by_tile_value s m) as [s'|] eqn:Hm; simpl; [|done].
  intros Hr. split; [by eapply apply_move_legal|]. exists s'. eauto.
Qed.

(** ** Text input: properties *)

Lemma check_values_Parsed vals r :
  check_values vals = Parsed r ↔
  r = vals ∧ vals ≡ₚ [0; 1; 2; 3; 4; 5; 6; 7; 8].
Proof.
  unfold check_values.
  destruct (decide (merge_sort Z.le vals = [0; 1; 2; 3; 4; 5; 6; 7; 8]))
    as [Heq|Hne].
  - split.
    + intros [= <-]. split; [done|].
      rewrite <- Heq. symmetry. apply merge_sort_Permutation.
    + by intros [-> _].
  - split; [done|]. intros [_ Hp]. exfalso. apply Hne.
    apply (Sorted_unique Z.le).
    + apply (Sorted_merge_sort Z.le).
    + apply (bool_decide_unpack _). by vm_compute.
    + by rewrite merge_sort_Permutation.
Qed.

Lemma forallb_Forall_true {A} (f : A → bool) (l : list A) :
  forallb f l = true ↔ Forall (λ x, f x = true) l.
Proof.
  induction l as [|x l IH]; simpl.
  - split; [constructor|done].
  - rewrite andb_true_iff, Forall_cons, IH. done.
Qed.

Lemma isdecimal_isdigit c : isdecimal c = true → isdigit c = true.
Proof. unfold isdecimal, isdigit. by intros ->. Qed.

Lemma isdigit_not_separator c : isdigit c = true → separator c = false.
Proof. destruct c as [[] [] [] [] [] [] [] []]; by vm_compute. Qed.

Lemma py_int_digit c :
  isdigit c = true →
  py_int [c] = if isdecimal c then Some (digit_value c) else None.
Proof. destruct c as [[] [] [] [] [] [] [] []]; by vm_compute. Qed.

Lemma mapM_digits t vals :
  Forall (λ c, isdigit c = true) t →
  mapM (λ ch, py_int [ch]) t = Some vals ↔
  Forall (λ c, isdecimal c = true) t ∧ vals = digit_value <$> t.
Proof.
  intros Ht. revert vals. induction Ht as [|c t Hc _ IH]; intros vals.
  - cbn. split; [by intros [= <-]|by intros [_ ->]].
  - cbn [mapM]. rewrite (py_int_digit c Hc).
    destruct (mapM (λ ch, py_int [ch]) t) as [vs|] eqn:Hm;
      destruct (isdecimal c) eqn:Hd; simpl.
    + destruct (IH vs) as [[Hf ->] _]; [done|]. split.
      * intros [= <-]. split; [by constructor|done].
      * by intros [_ ->].
    + split; [done|]. intros [Hf _]. apply Forall_cons in Hf as [Hf _].
      congruence.
    + split; [done|]. intros [Hf ->]. apply Forall_cons in Hf as [_ Hf].
      destruct (IH (digit_value <$> t)) as [_ H]. by specialize (H (conj Hf eq_refl)).
    + split; [done|]. intros [Hf _]. apply Forall_cons in Hf as [Hf _].
      congruence.
Qed.

Lemma split_on_no_separator sep l cur :
  Forall (λ c, sep c = false) l →
  split_on sep l cur = match cur ++ l with [] => [] | x => [x] end.
Proof.
  intros Hl. revert cur. induction Hl as [|c l Hc _ IH]; intros cur; simpl.
  - rewrite app_nil_r. by destruct cur.
  - rewrite Hc, IH, <- app_assoc. done.
Qed.

Lemma split_on_replace l cur :
  split_on isspace (replace ";" (replace "," l)) cur
  = split_on separator l cur.
Proof.
  revert cur. induction l as [|c l IH]; intros cur; [done|].
  unfold replace in *. rewrite !fmap_cons. cbn [split_on].
  unfold separator.
  destruct (decide (c = ","%char)) as [->|Hc1].
  { rewrite decide_False by done. simpl. by destruct cur; rewrite IH. }
  destruct (decide (c = ";"%char)) as [->|Hc2].
  { simpl. by destruct cur; rewrite IH. }
  rewrite !bool_decide_eq_false_2 by done. rewrite !orb_false_r.
  destruct (isspace c); [by destruct cur; rewrite IH|apply IH].
Qed.

Lemma isspace_separator c : isspace c = true → separator c = true.
Proof. unfold separator. by intros ->. Qed.

Lemma split_on_lstrip l : split_on separator (lstrip l) [] = split_on separator l [].
Proof.
  induction l as [|c l IH]; [done|]. simpl.
  destruct (isspace c) eqn:Hc; [|done].
  by rewrite (isspace_separator c Hc).
Qed.

Lemma rstrip_nil_split l : rstrip l = [] → split_on separator l [] = [].
Proof.
  induction l as [|c l IH]; [done|]. simpl.
  destruct (rstrip l) as [|c' l']; [|done].
  destruct (isspace c) eqn:Hc; [|done]. intros _.
  rewrite (isspace_separator c Hc). by apply IH.
Qed.

Lemma split_on_rstrip l cur :
  split_on separator (rstrip l) cur = split_on separator l cur.
Proof.
  revert cur. induction l as [|c l IH]; intros cur; [done|].
  cbn [rstrip]. destruct (rstrip l) as [|c' l'] eqn:Hr.
  - pose proof (rstrip_nil_split l Hr) as Hnil.
    destruct (isspace c) eqn:Hc.
    + cbn [split_on]. rewrite (isspace_separator c Hc), Hnil.
      by destruct cur.
    + cbn [split_on]. destruct (separator c); [by rewrite Hnil|apply IH].
  - cbn [split_on]. destruct (separator c); [by rewrite <- IH|apply IH].
Qed.

Lemma tokens_of_strip text : tokens_of (strip text) = tokens_of text.
Proof.
  unfold tokens_of, strip. by rewrite split_on_lstrip, split_on_rstrip.
Qed.

(** [parse_state] returns a Board exactly when the text without its
    surrounding whitespace is in the digits form, or the text is in the
    tokens form. *)
Lemma parse_state_Parsed text vals :
  parse_state text = Parsed vals ↔
  digits_form (strip text) vals ∨ tokens_form text vals.
Proof.
  unfold tokens_form. rewrite <- (tokens_of_strip text).
  unfold parse_state. destruct (strip text) as [|c t] eqn:Ht.
  { split; [done|]. by intros [(Hl & _)|(Hl & _)]. }
  set (t' := c :: t) in *.
  destruct (forallb isdigit t' && (length t' =? 9)%nat) eqn:Hb.
  - apply andb_true_iff in Hb as [Hd Hl].
    apply forallb_Forall_true in Hd as Hd'. apply Nat.eqb_eq in Hl.
    assert (tokens_of t' = [t']) as Htok.
    { unfold tokens_of. rewrite split_on_no_separator; [done|].
      eapply Forall_impl; [exact Hd'|]. apply isdigit_not_separator. }
    rewrite Htok. pose proof (mapM_digits t') as Hm.
    destruct (mapM (λ ch, py_int [ch]) t') as [vs|].
    + rewrite check_values_Parsed. split.
      * intros [-> Hp]. left. destruct (Hm vs Hd') as [[Hf Hv] _]; [done|].
        by split_and!.
      * intros [(_ & Hf & Hv & Hp)|(Hl' & _)]; [|done].
        destruct (Hm vals Hd') as [_ H]. specialize (H (conj Hf Hv)).
        injection H as ->. done.
    + split; [done|]. intros [(_ & Hf & Hv & Hp)|(Hl' & _)]; [|done].
      destruct (Hm vals Hd') as [_ H]. by specialize (H (conj Hf Hv)).
  - unfold split. rewrite split_on_replace. fold (tokens_of t').
    assert (¬ digits_form t' vals) as Hnd.
    { intros (Hl & Hf & _). apply andb_false_iff in Hb as [Hb|Hb].
      - apply not_true_iff_false in Hb. apply Hb, forallb_Forall_true.
        eapply Forall_impl; [exact Hf|]. apply isdecimal_isdigit.
      - apply Nat.eqb_neq in Hb. done. }
    destruct (length (tokens_of t') =? 9)%nat eqn:Hl; simpl.
    + apply Nat.eqb_eq in Hl.
      destruct (mapM py_int (tokens_of t')) as [vs|].
      * rewrite check_values_Parsed. split.
        -- intros [-> Hp]. by right.
        -- intros [?|(_ & [= ->] & Hp)]; done.
      * split; [done|]. by intros [?|(_ & ? & _)].
    + apply Nat.eqb_neq in Hl. split; [done|]. by intros [?|(? & _)].
Qed.

(** ** The outcomes of [parse_state] *)






(** The limit at work: 4300 digits are read, 4301 are not. *)
Lemma py_int_limit_boundary :
  py_int (replicate 4299 "0"%char ++ ["1"%char]) = Some 1 ∧
  py_int (replicate 4300 "0"%char ++ ["1"%char]) = None.
Proof. split; by vm_compute. Qed.

(** * The claims of the specification *)

(** Claim C1. For every solvable start Board, [astar_solve] with the default
    budget returns a move list that leads to [GOAL] and is as short as any
    list of legal moves leading to [GOAL]; for the start
    [1,2,3,4,5,6,0,7,8] the returned list has length exactly 2. *)
Theorem solve_returns_shortest start fuel :
  Board start → is_solvable_3x3 start = true →
  (enough_fuel default_max_expansions ≤ fuel)%nat →
  (∃ ms, astar_solve fuel start default_max_expansions = Moves ms ∧
         replay start ms = Some GOAL ∧
         ∀ ms', replay start ms' = Some GOAL → (length ms ≤ length ms')%nat)
  ∧
  (∃ ms, astar_solve fuel [1; 2; 3; 4; 5; 6; 0; 7; 8] default_max_expansions
         = Moves ms ∧ length ms = 2%nat).
Proof.
  intros Hb Hsol Hfuel. split.
  - by apply astar_optimal.
  - assert (Board [1; 2; 3; 4; 5; 6; 0; 7; 8]) as Hb'.
    { apply (bool_decide_unpack _). by vm_compute. }
    destruct (astar_optimal fuel [1; 2; 3; 4; 5; 6; 0; 7; 8]
                default_max_expansions Hb')
      as (ms & Hms & Hr & Hmin); [by vm_compute|done|done|].
    exists ms. split; [done|].
    assert (replay [1; 2; 3; 4; 5; 6; 0; 7; 8] [7; 8] = Some GOAL) as H2
      by (by vm_compute).
    specialize (Hmin _ H2). simpl in Hmin.
    pose proof (replay_distance _ _ _ Hb' Hr) as Hd.
    rewrite sum_distances_GOAL in Hd.
    assert (sum_distances 0 [1; 2; 3; 4; 5; 6; 0; 7; 8] = 2) as E
      by (by vm_compute).
    rewrite E in Hd. lia.
Qed.

Lemma solve_returns_shortest_witness :
  (∃ ms, astar_solve (enough_fuel default_max_expansions)
           [1; 2; 3; 4; 5; 6; 0; 7; 8] default_max_expansions = Moves ms ∧
         replay [1; 2; 3; 4; 5; 6; 0; 7; 8] ms = Some GOAL ∧
         ∀ ms', replay [1; 2; 3; 4; 5; 6; 0; 7; 8] ms' = Some GOAL →
                (length ms ≤ length ms')%nat)
  ∧
  (∃ ms, astar_solve (enough_fuel default_max_expansions)
           [1; 2; 3; 4; 5; 6; 0; 7; 8] default_max_expansions
         = Moves ms ∧ length ms = 2%nat).
Proof.
  apply (solve_returns_shortest [1; 2; 3; 4; 5; 6; 0; 7; 8]
           (enough_fuel default_max_expansions)).
  - apply (bool_decide_unpack _). vm_compute. reflexivity.
  - vm_compute. reflexivity.
  - apply le_n.
Defined.

(** Claim C2. When [astar_solve] returns a non-empty move list for a start
    Board, every move of the list is legal at the moment it is made (the
    moved tile is next to the blank), and replaying the list from the start
    ends in [GOAL]. *)
Theorem solver_moves_replay_to_goal fuel start max_expansions ms :
  Board start → astar_solve fuel start max_expansions = Moves ms → ms ≠ [] →
  moves_legal start ms ∧ replay start ms = Some GOAL.
Proof.
  intros Hb Hms _. pose proof (astar_sound _ _ _ _ Hb Hms) as Hr.
  split; [by eapply replay_moves_legal|done].
Qed.

Lemma solver_moves_replay_to_goal_witness :
  moves_legal [1; 2; 3; 4; 5; 6; 0; 7; 8] [7; 8] ∧
  replay [1; 2; 3; 4; 5; 6; 0; 7; 8] [7; 8] = Some GOAL.
Proof.
  apply (solver_moves_replay_to_goal 100 [1; 2; 3; 4; 5; 6; 0; 7; 8] 250000).
  - apply (bool_decide_unpack _). vm_compute. reflexivity.
  - vm_compute. reflexivity.
  - discriminate.
Defined.

(** Claim C3. For every Board, [inversions] counts the inverted pairs of
    the Board without the blank, [is_solvable_3x3] is true iff this number
    is even, and this holds iff the Board can be reached from [GOAL] by a
    sequence of legal moves. *)
Theorem solvable_iff_reachable B :
  Board B →
  inversions B = Z.of_nat (length (inverted_pairs B)) ∧
  (is_solvable_3x3 B = true ↔ Z.even (inversions B) = true) ∧
  (is_solvable_3x3 B = true ↔ ∃ ms, replay GOAL ms = Some B).
Proof.
  intros Hb. split_and!.
  - apply count_inversions_pairs.
  - unfold is_solvable_3x3. rewrite Zmod_even.
    by destruct (Z.even (inversions B)).
  - split.
    + intros Hsol. destruct (solvable_reaches_goal B Hb Hsol) as [ms Hms].
      exists (reverse ms). by apply replay_back.
    + intros [ms Hms].
      by rewrite (replay_solvable GOAL ms B Board_GOAL Hms).
Qed.

Lemma solvable_iff_reachable_witness :
  inversions [1; 2; 3; 4; 5; 6; 0; 7; 8]
  = Z.of_nat (length (inverted_pairs [1; 2; 3; 4; 5; 6; 0; 7; 8])) ∧
  (is_solvable_3x3 [1; 2; 3; 4; 5; 6; 0; 7; 8] = true ↔
   Z.even (inversions [1; 2; 3; 4; 5; 6; 0; 7; 8]) = true) ∧
  (is_solvable_3x3 [1; 2; 3; 4; 5; 6; 0; 7; 8] = true ↔
   ∃ ms, replay GOAL ms = Some [1; 2; 3; 4; 5; 6; 0; 7; 8]).
Proof.
  apply (solvable_iff_reachable [1; 2; 3; 4; 5; 6; 0; 7; 8]).
  apply (bool_decide_unpack _). vm_compute. reflexivity.
Defined.

(** Claim C4. For every budget, positive or not, [astar_solve] on [GOAL]
    returns the empty move list before any search (no fuel is needed), and
    this result is a move list, not the [None] of a failed search. *)
Theorem solve_goal_returns_empty fuel max_expansions :
  astar_solve fuel GOAL max_expansions = Moves [] ∧
  astar_solve 0 GOAL max_expansions = Moves [] ∧
  astar_solve fuel GOAL max_expansions ≠ NoSolution.
Proof. split_and!; done. Qed.

(** Claim C5. [manhattan] of [GOAL] is 0; on every Board [manhattan]
    returns a non-negative integer, which is 0 iff the Board is [GOAL]. *)
Theorem manhattan_zero_iff_goal B :
  Board B →
  manhattan GOAL = Some 0 ∧
  ∃ d, manhattan B = Some d ∧ 0 ≤ d ∧ (d = 0 ↔ B = GOAL).
Proof.
  intros Hb. split; [done|]. exists (sum_distances 0 B).
  split_and!.
  - by apply manhattan_Board.
  - apply sum_distances_nonneg.
  - split; [by apply sum_distances_zero_GOAL|].
    intros ->. apply sum_distances_GOAL.
Qed.

Lemma manhattan_zero_iff_goal_witness :
  manhattan GOAL = Some 0 ∧
  ∃ d, manhattan [1; 2; 3; 4; 5; 6; 0; 7; 8] = Some d ∧ 0 ≤ d ∧
       (d = 0 ↔ [1; 2; 3; 4; 5; 6; 0; 7; 8] = GOAL).
Proof.
  apply (manhattan_zero_iff_goal [1; 2; 3; 4; 5; 6; 0; 7; 8]).
  apply (bool_decide_unpack _). vm_compute. reflexivity.
Defined.

(** Claim C6. The heuristic is consistent: a legal move on a Board changes
    [manhattan] by at most 1. *)
Theorem manhattan_consistent B m :
  Board B → legal_move B m →
  ∃ B' h h', apply_move_by_tile_value B m = Some B' ∧
             manhattan B = Some h ∧ manhattan B' = Some h' ∧
             Z.abs (h' - h) ≤ 1.
Proof.
  intros Hb Hm. destruct (legal_move_apply B m Hb Hm) as [B' HB'].
  exists B', (sum_distances 0 B), (sum_distances 0 B'). split_and!.
  - done.
  - by apply manhattan_Board.
  - apply manhattan_Board. by eapply move_Board.
  - by eapply move_distance.
Qed.

Lemma manhattan_consistent_witness :
  ∃ B' h h',
    apply_move_by_tile_value [1; 2; 3; 4; 5; 6; 0; 7; 8] 7 = Some B' ∧
    manhattan [1; 2; 3; 4; 5; 6; 0; 7; 8] = Some h ∧
    manhattan B' = Some h' ∧ Z.abs (h' - h) ≤ 1.
Proof.
  apply (manhattan_consistent [1; 2; 3; 4; 5; 6; 0; 7; 8] 7).
  - apply (bool_decide_unpack _). vm_compute. reflexivity.
  - exists 6%nat, 7%nat. split; [reflexivity|]. split; [reflexivity|].
    apply (bool_decide_unpack _). vm_compute. reflexivity.
Defined.

(** Claim C7. The heuristic is admissible: on a Board, [manhattan] is at
    most the length of any sequence of legal moves that leads to [GOAL]. *)
Theorem manhattan_admissible B ms :
  Board B → replay B ms = Some GOAL →
  moves_legal B ms ∧
  ∃ h, manhattan B = Some h ∧ h ≤ Z.of_nat (length ms).
Proof.
  intros Hb Hr. split; [by eapply replay_moves_legal|].
  exists (sum_distances 0 B). split; [by apply manhattan_Board|].
  pose proof (replay_distance B ms GOAL Hb Hr) as Hd.
  rewrite sum_distances_GOAL in Hd. lia.
Qed.

Lemma manhattan_admissible_witness :
  moves_legal [1; 2; 3; 4; 5; 6; 0; 7; 8] [7; 8] ∧
  ∃ h, manhattan [1; 2; 3; 4; 5; 6; 0; 7; 8] = Some h ∧
       h ≤ Z.of_nat (length [7; 8]).
Proof.
  apply (manhattan_admissible [1; 2; 3; 4; 5; 6; 0; 7; 8] [7; 8]).
  - apply (bool_decide_unpack _). vm_compute. reflexivity.
  - vm_compute. reflexivity.
Defined.



(** Claim C9. For every unsolvable start Board and every budget, positive
    or not, [astar_solve] ends (given the fuel the budget calls for) and
    returns [None]: never a move list, never an exception. *)
Theorem unsolvable_returns_no_solution start max_expansions fuel :
  Board start → is_solvable_3x3 start = false →
  (enough_fuel max_expansions ≤ fuel)%nat →
  astar_solve fuel start max_expansions = NoSolution.
Proof.
  intros Hb Hsol Hfuel.
  destruct (astar_total fuel start max_expansions Hb Hfuel) as [[ms Hms]|H];
    [|done].
  pose proof (astar_sound _ _ _ _ Hb Hms) as Hr.
  pose proof (replay_solvable start ms GOAL Hb Hr) as Heq.
  rewrite Hsol in Heq. done.
Qed.

Lemma unsolvable_returns_no_solution_witness :
  astar_solve (enough_fuel 1) [1; 2; 3; 4; 5; 6; 8; 7; 0] 1 = NoSolution.
Proof.
  apply (unsolvable_returns_no_solution [1; 2; 3; 4; 5; 6; 8; 7; 0] 1
           (enough_fuel 1)).
  - apply (bool_decide_unpack _). vm_compute. reflexivity.
  - vm_compute. reflexivity.
  - apply le_n.
Defined.

(** Claim C10. A legal move on a Board yields a Board again, and does not
    change [is_solvable_3x3]. *)
Theorem move_preserves_solvability B m :
  Board B → legal_move B m →
  ∃ B', apply_move_by_tile_value B m = Some B' ∧ Board B' ∧
        is_solvable_3x3 B' = is_solvable_3x3 B.
Proof.
  intros Hb Hm. destruct (legal_move_apply B m Hb Hm) as [B' HB'].
  exists B'. split_and!; [done|by eapply move_Board|by eapply move_solvable].
Qed.

Lemma move_preserves_solvability_witness :
  ∃ B', apply_move_by_tile_value [1; 2; 3; 4; 5; 6; 0; 7; 8] 7 = Some B' ∧
        Board B' ∧
        is_solvable_3x3 B' = is_solvable_3x3 [1; 2; 3; 4; 5; 6; 0; 7; 8].
Proof.
  apply (move_preserves_solvability [1; 2; 3; 4; 5; 6; 0; 7; 8] 7).
  - apply (bool_decide_unpack _). vm_compute. reflexivity.
  - exists 6%nat, 7%nat. split; [reflexivity|]. split; [reflexivity|].
    apply (bool_decide_unpack _). vm_compute. reflexivity.
Defined.
(** * Further properties of the code *)

(** ** The grid and the moves *)

Lemma neighbors_grid_check :
  forallb (λ z,
    forallb (λ nb,
      Bool.eqb (bool_decide (nb ∈ neighbors z)) (grid_distance z nb =? 1))
      (seq 0 9))
    (seq 0 9) = true.
Proof. by vm_compute. Qed.

Lemma neighbors_shape_check :
  forallb (λ z,
    bool_decide (NoDup (neighbors z)) &&
    (2 <=? length (neighbors z))%nat && (length (neighbors z) <=? 4)%nat)
    (seq 0 9) = true.
Proof. by vm_compute. Qed.

Lemma neighbors_shape z :
  (z < 9)%nat → NoDup (neighbors z) ∧ (2 ≤ length (neighbors z) ≤ 4)%nat.
Proof.
  intros Hz. assert (In z (seq 0 9)) as Hinz by (apply in_seq; lia).
  pose proof neighbors_shape_check as H. rewrite forallb_forall in H.
  specialize (H z Hinz). apply andb_true_iff in H as [H H2].
  apply andb_true_iff in H as [H0 H1].
  apply bool_decide_eq_true in H0. apply Nat.leb_le in H1, H2. done.
Qed.

Lemma neighbors_grid z nb :
  (z < 9)%nat →
  nb ∈ neighbors z ↔ (nb < 9)%nat ∧ grid_distance z nb = 1.
Proof.
  intros Hz. assert (In z (seq 0 9)) as Hinz by (apply in_seq; lia).
  pose proof neighbors_grid_check as H. rewrite forallb_forall in H.
  specialize (H z Hinz). rewrite forallb_forall in H. split.
  - intros Hnb. destruct (neighbors_sym z nb Hz Hnb) as (Hnb9 & _).
    split; [done|].
    assert (In nb (seq 0 9)) as Hin by (apply in_seq; lia).
    specialize (H nb Hin). apply Bool.eqb_prop in H.
    rewrite bool_decide_eq_true_2 in H by done. symmetry in H.
    by apply Z.eqb_eq in H.
  - intros [Hnb9 Hd].
    assert (In nb (seq 0 9)) as Hin by (apply in_seq; lia).
    specialize (H nb Hin). apply Bool.eqb_prop in H.
    rewrite Hd in H. by apply bool_decide_eq_true in H.
Qed.

(** Property X1. [neighbors] of a cell of the grid are the cells of the
    grid at distance 1 from it, each listed once, two to four of them; and
    a cell is a neighbour of its neighbours. *)
Theorem neighbors_are_adjacent_cells z nb :
  (z < 9)%nat →
  (nb ∈ neighbors z ↔ (nb < 9)%nat ∧ grid_distance z nb = 1) ∧
  (nb ∈ neighbors z → z ∈ neighbors nb) ∧
  NoDup (neighbors z) ∧ (2 ≤ length (neighbors z) ≤ 4)%nat.
Proof.
  intros Hz. split; [by apply neighbors_grid|]. split.
  - intros Hnb. by destruct (neighbors_sym z nb Hz Hnb) as (_ & _ & ?).
  - by apply neighbors_shape.
Qed.

Lemma neighbors_are_adjacent_cells_witness :
  (5%nat ∈ neighbors 4 ↔ (5 < 9)%nat ∧ grid_distance 4 5 = 1) ∧
  (5%nat ∈ neighbors 4 → 4%nat ∈ neighbors 5) ∧
  NoDup (neighbors 4) ∧ (2 ≤ length (neighbors 4) ≤ 4)%nat.
Proof. apply (neighbors_are_adjacent_cells 4 5). lia. Defined.

Lemma adjacent_cells_exact :
  forallb (λ z,
    forallb (λ nb,
      forallb (λ v, Z.abs (tile_distance z v - tile_distance nb v) =? 1)
        [1; 2; 3; 4; 5; 6; 7; 8])
      (neighbors z))
    (seq 0 9) = true.
Proof. by vm_compute. Qed.

Lemma move_distance_exact s m t :
  Board s → apply_move_by_tile_value s m = Some t →
  Z.abs (sum_distances 0 t - sum_distances 0 s) = 1.
Proof.
  intros Hb Hm.
  destruct (move_shape s m t Hb Hm)
    as (z & nb & _ & Hz & Hnb & _ & Hr & _ & Hsh).
  rewrite (swap_shape_distance _ _ _ _ _ Hsh).
  pose proof adjacent_cells_exact as H. rewrite forallb_forall in H.
  assert (In z (seq 0 9)) as Hin by (apply in_seq; lia).
  specialize (H z Hin). rewrite forallb_forall in H.
  assert (In nb (neighbors z)) as Hin' by (by apply list_elem_of_In).
  specialize (H nb Hin'). rewrite forallb_forall in H.
  assert (In m [1; 2; 3; 4; 5; 6; 7; 8]) as Hin'' by (simpl; lia).
  specialize (H m Hin''). lia.
Qed.

(** Property X2. A legal move on a Board changes [manhattan] by exactly 1,
    up or down: never by 0. *)
Theorem move_changes_manhattan_by_one B m :
  Board B → legal_move B m →
  ∃ B' h h', apply_move_by_tile_value B m = Some B' ∧
             manhattan B = Some h ∧ manhattan B' = Some h' ∧
             (h' = h + 1 ∨ h' = h - 1).
Proof.
  intros Hb Hm. destruct (legal_move_apply B m Hb Hm) as [B' HB'].
  exists B', (sum_distances 0 B), (sum_distances 0 B'). split_and!.
  - done.
  - by apply manhattan_Board.
  - apply manhattan_Board. by eapply move_Board.
  - pose proof (move_distance_exact B m B' Hb HB'). lia.
Qed.

Lemma move_changes_manhattan_by_one_witness :
  ∃ B' h h',
    apply_move_by_tile_value [1; 2; 3; 4; 5; 6; 0; 7; 8] 4 = Some B' ∧
    manhattan [1; 2; 3; 4; 5; 6; 0; 7; 8] = Some h ∧
    manhattan B' = Some h' ∧ (h' = h + 1 ∨ h' = h - 1).
Proof.
  apply (move_changes_manhattan_by_one [1; 2; 3; 4; 5; 6; 0; 7; 8] 4).
  - apply (bool_decide_unpack _). vm_compute. reflexivity.
  - exists 6%nat, 3%nat. split; [reflexivity|]. split; [reflexivity|].
    apply (bool_decide_unpack _). vm_compute. reflexivity.
Defined.

Lemma move_changes_Board s m t :
  Board s → apply_move_by_tile_value s m = Some t → t ≠ s.
Proof.
  intros Hb Hm Heq. pose proof (move_distance_exact s m t Hb Hm) as H.
  rewrite Heq in H. lia.
Qed.

(** Property X3. A click on a tile of a Board moves the tile exactly when
    it is next to the blank; the result is another Board, different from
    the first, and a second click on the same tile moves it back. *)
Theorem tile_click_moves_and_undoes B m :
  Board B →
  (is_Some (apply_move_by_tile_value B m) ↔ legal_move B m) ∧
  ∀ B', apply_move_by_tile_value B m = Some B' →
        Board B' ∧ B' ≠ B ∧ apply_move_by_tile_value B' m = Some B.
Proof.
  intros Hb. split.
  - split.
    + intros [B' HB']. by eapply apply_move_legal.
    + intros Hm. destruct (legal_move_apply B m Hb Hm) as [B' HB']. eauto.
  - intros B' HB'. split_and!.
    + by eapply move_Board.
    + by eapply move_changes_Board.
    + by apply move_back.
Qed.

Lemma tile_click_moves_and_undoes_witness :
  (is_Some (apply_move_by_tile_value [1; 2; 3; 4; 5; 6; 0; 7; 8] 7) ↔
   legal_move [1; 2; 3; 4; 5; 6; 0; 7; 8] 7) ∧
  ∀ B', apply_move_by_tile_value [1; 2; 3; 4; 5; 6; 0; 7; 8] 7 = Some B' →
        Board B' ∧ B' ≠ [1; 2; 3; 4; 5; 6; 0; 7; 8] ∧
        apply_move_by_tile_value B' 7 = Some [1; 2; 3; 4; 5; 6; 0; 7; 8].
Proof.
  apply (tile_click_moves_and_undoes [1; 2; 3; 4; 5; 6; 0; 7; 8] 7).
  apply (bool_decide_unpack _). vm_compute. reflexivity.
Defined.

(** ** Inversions and solvability *)

Lemma count_inversions_nonneg l : 0 ≤ count_inversions l.
Proof.
  induction l as [|x l IH]; [done|].
  rewrite count_inversions_cons. pose proof (smaller_bounds x l). lia.
Qed.

Lemma count_inversions_bound l :
  2 * count_inversions l ≤ Z.of_nat (length l) * (Z.of_nat (length l) - 1).
Proof.
  induction l as [|x l IH]; [done|].
  rewrite count_inversions_cons. pose proof (smaller_bounds x l).
  simpl length. nia.
Qed.

Lemma smaller_zero x l : smaller x l = 0 ↔ Forall (Z.le x) l.
Proof.
  induction l as [|y l IH].
  - split; [by constructor|done].
  - rewrite smaller_cons, Forall_cons. pose proof (smaller_bounds x l).
    destruct (decide (y < x)); split.
    + lia.
    + intros [? _]. lia.
    + intros Hs. split; [lia|]. apply IH. lia.
    + intros [_ Hl]. apply IH in Hl. lia.
Qed.

Lemma count_inversions_zero l :
  count_inversions l = 0 ↔ StronglySorted Z.le l.
Proof.
  induction l as [|x l IH].
  - split; [by constructor|done].
  - rewrite count_inversions_cons.
    pose proof (smaller_bounds x l). pose proof (count_inversions_nonneg l).
    split.
    + intros Hs. constructor.
      * apply IH. lia.
      * apply smaller_zero. lia.
    + intros Hs. apply StronglySorted_inv in Hs as [Hl Hx].
      apply IH in Hl. apply smaller_zero in Hx. lia.
Qed.

(** Property X4. [inversions] is a number between 0 and [n * (n - 1) / 2]
    for a state with [n] non-blank entries, and it is 0 exactly when the
    non-blank entries stand in ascending order. *)
Theorem inversions_zero_iff_sorted state :
  let n := Z.of_nat (length (filter (λ x, x ≠ 0) state)) in
  0 ≤ inversions state ∧ 2 * inversions state ≤ n * (n - 1) ∧
  (inversions state = 0 ↔ Sorted Z.le (filter (λ x, x ≠ 0) state)).
Proof.
  split_and!.
  - apply count_inversions_nonneg.
  - apply count_inversions_bound.
  - unfold inversions. rewrite count_inversions_zero. split.
    + apply StronglySorted_Sorted.
    + apply Sorted_StronglySorted. intros x y z. lia.
Qed.

Lemma count_inversions_exchange X M C a b :
  a ∉ M → b ∉ M → a ≠ b →
  ∃ k, count_inversions (X ++ a :: M ++ b :: C)
       = count_inversions (X ++ b :: M ++ a :: C) + 1 + 2 * k.
Proof.
  intros Ha Hb Hab.
  assert (b ∉ a :: M) as Hb'.
  { apply not_elem_of_cons. split; [congruence|done]. }
  pose proof (count_inversions_move X (a :: M) b C Hb') as H1.
  pose proof (count_inversions_move (X ++ [b]) M a C Ha) as H2.
  rewrite <- !app_assoc in H2. simpl in H1, H2.
  exists (smaller a M - smaller b (a :: M)). lia.
Qed.

Lemma filter_two_cells (A M C : list Z) x y :
  x ≠ 0 → y ≠ 0 →
  filter (λ v, v ≠ 0) (A ++ x :: M ++ y :: C)
  = filter (λ v, v ≠ 0) A ++ x :: filter (λ v, v ≠ 0) M
      ++ y :: filter (λ v, v ≠ 0) C.
Proof.
  intros Hx Hy. rewrite filter_app, filter_cons_True by done.
  by rewrite filter_app, filter_cons_True by done.
Qed.

Lemma exchange_parity (A M C : list Z) x y :
  NoDup (A ++ x :: M ++ y :: C) → x ≠ 0 → y ≠ 0 →
  is_solvable_3x3 (A ++ y :: M ++ x :: C)
  = negb (is_solvable_3x3 (A ++ x :: M ++ y :: C)).
Proof.
  intros Hnd Hx Hy.
  destruct (NoDup_two_cells _ _ _ _ _ Hnd) as (HxM & HyM & Hxy).
  unfold is_solvable_3x3, inversions.
  rewrite !filter_two_cells by done.
  destruct (count_inversions_exchange (filter (λ v, v ≠ 0) A)
              (filter (λ v, v ≠ 0) M) (filter (λ v, v ≠ 0) C) x y)
    as [k Hk].
  - intros Hin. apply list_elem_of_filter in Hin as [_ Hin]. done.
  - intros Hin. apply list_elem_of_filter in Hin as [_ Hin]. done.
  - done.
  - rewrite Hk, !Zmod_even.
    replace (count_inversions
               (filter (λ v, v ≠ 0) A ++ y :: filter (λ v, v ≠ 0) M
                  ++ x :: filter (λ v, v ≠ 0) C) + 1 + 2 * k)
      with (Z.succ (count_inversions
               (filter (λ v, v ≠ 0) A ++ y :: filter (λ v, v ≠ 0) M
                  ++ x :: filter (λ v, v ≠ 0) C) + 2 * k)) by lia.
    rewrite Z.even_succ, <- Z.negb_even, Z.even_add_mul_2.
    by destruct (Z.even _).
Qed.

(** Property X5. Exchanging two non-blank tiles of a state without repeated
    values turns a solvable state into an unsolvable one and back. *)
Theorem exchange_flips_solvability state i j a b :
  NoDup state → state !! i = Some a → state !! j = Some b → i ≠ j →
  a ≠ 0 → b ≠ 0 →
  is_solvable_3x3 (<[j := a]> (<[i := b]> state))
  = negb (is_solvable_3x3 state).
Proof.
  intros Hnd Hi Hj Hij Ha Hb.
  destruct (decide (i < j)%nat) as [Hlt|Hge].
  - destruct (split_two state i j a b Hi Hj Hlt)
      as (A & M & C & -> & <- & <-).
    rewrite insert_middle_len, insert_second_len.
    by apply exchange_parity.
  - assert (j < i)%nat as Hlt by lia.
    destruct (split_two state j i b a Hj Hi Hlt)
      as (A & M & C & -> & <- & <-).
    rewrite insert_second_len, insert_middle_len.
    by apply exchange_parity.
Qed.

Lemma exchange_flips_solvability_witness :
  is_solvable_3x3 (<[7%nat := 7]> (<[6%nat := 8]> GOAL))
  = negb (is_solvable_3x3 GOAL).
Proof.
  apply (exchange_flips_solvability GOAL 6 7 7 8).
  - apply (bool_decide_unpack _). vm_compute. reflexivity.
  - reflexivity.
  - reflexivity.
  - lia.
  - lia.
  - lia.
Defined.

(** ** The heuristic on arbitrary lists *)

Lemma GOAL_POS_None v : GOAL_POS v = None ↔ ¬ (0 ≤ v ≤ 8).
Proof.
  split.
  - intros H Hr. destruct (decide (v = 0)) as [->|Hne]; [done|].
    rewrite GOAL_POS_tile in H by lia. done.
  - intros Hr. unfold GOAL_POS, GOAL. simpl.
    repeat (destruct (decide _) as [|_]; [lia|]). done.
Qed.

Lemma manhattan_from_None i l d :
  manhattan_from i l d = None ↔ ∃ v, v ∈ l ∧ ¬ (0 ≤ v ≤ 8).
Proof.
  revert i d. induction l as [|v l IH]; intros i d; simpl.
  - split; [done|]. intros (v & Hin & _). by apply elem_of_nil in Hin.
  - destruct (decide (v = 0)) as [->|Hne].
    + rewrite IH. split.
      * intros (w & Hin & Hw). exists w. split; [by right|done].
      * intros (w & Hin & Hw). exists w. split; [|done].
        apply elem_of_cons in Hin as [->|Hin]; [lia|done].
    + destruct (GOAL_POS v) as [gi|] eqn:Hg; simpl.
      * rewrite IH. split.
        -- intros (w & Hin & Hw). exists w. split; [by right|done].
        -- intros (w & Hin & Hw). exists w. split; [|done].
           apply elem_of_cons in Hin as [->|Hin]; [|done].
           apply GOAL_POS_None in Hw. congruence.
      * split; [|done]. intros _. exists v. split; [by left|].
        by apply GOAL_POS_None.
Qed.

Lemma manhattan_from_le i l d h : manhattan_from i l d = Some h → d ≤ h.
Proof.
  revert i d. induction l as [|v l IH]; intros i d; simpl.
  - intros [= <-]. lia.
  - destruct (decide (v = 0)) as [->|Hne]; [apply IH|].
    destruct (GOAL_POS v) as [gi|]; simpl; [|done].
    intros H. apply IH in H. pose proof (grid_distance_nonneg i gi). lia.
Qed.

(** Property X6. [manhattan] raises ([KeyError]) exactly on the lists that
    hold a value outside 0..8, whatever their length; on every other list it
    returns a number that is not negative. [astar_solve] on a list with such
    a value raises as well, for every budget, before the search begins. *)
Theorem manhattan_raises_iff_foreign_value state :
  (manhattan state = None ↔ ∃ v, v ∈ state ∧ ¬ (0 ≤ v ≤ 8)) ∧
  (∀ h, manhattan state = Some h → 0 ≤ h) ∧
  ((∃ v, v ∈ state ∧ ¬ (0 ≤ v ≤ 8)) →
   ∀ fuel max_expansions, astar_solve fuel state max_expansions = Raised).
Proof.
  split_and!.
  - apply manhattan_from_None.
  - intros h. apply manhattan_from_le.
  - intros Hv fuel max_expansions. unfold astar_solve.
    destruct (decide (state = GOAL)) as [->|_].
    + destruct Hv as (v & Hin & Hv). exfalso. apply Hv.
      by apply (Board_elem GOAL v Board_GOAL).
    + apply (manhattan_from_None 0 state 0) in Hv. unfold manhattan.
      by rewrite Hv.
Qed.

(** ** The solver: budget and fuel *)

Lemma walk_parents_more_fuel (w w' : nat)
    (par : gmap (list Z) (list Z * Z)) (cur acc r : list Z) :
  walk_parents w par cur acc = Some r → (w ≤ w')%nat →
  walk_parents w' par cur acc = Some r.
Proof.
  revert w' cur acc. induction w as [|w IH]; intros w' cur acc H Hle.
  - destruct w'; simpl in *; destruct (par !! cur) as [[prev moved]|];
      done.
  - destruct w' as [|w']; [lia|]. simpl in *.
    destruct (par !! cur) as [[prev moved]|]; [|done].
    apply IH; [done|lia].
Qed.

Lemma astar_step_more w w' b b' st :
  (w ≤ w')%nat → b ≤ b' →
  match astar_step w b st with
  | inl st' => astar_step w' b' st = inl st'
  | inr (Moves ms) => astar_step w' b' st = inr (Moves ms)
  | inr _ => True
  end.
Proof.
  intros Hw Hb. unfold astar_step.
  destruct (heappop (open_heap st)) as [[[[f g] s] h']|]; [|done].
  destruct (decide (g ≠ g_cost_get (g_cost st) s)); [done|].
  destruct (decide (s = GOAL)).
  { destruct (walk_parents w (parent st) s []) as [r|] eqn:Hr; [|done].
    by rewrite (walk_parents_more_fuel w w' _ _ _ _ Hr Hw). }
  destruct (Z.ltb_spec b (expansions st + 1)); [done|].
  destruct (Z.ltb_spec b' (expansions st + 1)); [lia|].
  destruct (index_of 0 s) as [z|]; [|done].
  by destruct (relax_all s g z (neighbors z) _).
Qed.

Lemma astar_loop_more fuel fuel' w w' b b' st ms :
  (fuel ≤ fuel')%nat → (w ≤ w')%nat → b ≤ b' →
  astar_loop fuel w b st = Moves ms → astar_loop fuel' w' b' st = Moves ms.
Proof.
  intros Hf Hw Hb. revert fuel' st Hf.
  induction fuel as [|fuel IH]; intros fuel' st Hf; simpl; [done|].
  destruct fuel' as [|fuel']; [lia|]. simpl.
  pose proof (astar_step_more w w' b b' st Hw Hb) as Hstep.
  destruct (astar_step w b st) as [st'|[ms'| | |]]; try done.
  - rewrite Hstep. apply IH. lia.
  - rewrite Hstep. done.
Qed.

Lemma astar_solve_more fuel fuel' b b' start ms :
  (fuel ≤ fuel')%nat → b ≤ b' →
  astar_solve fuel start b = Moves ms → astar_solve fuel' start b' = Moves ms.
Proof.
  intros Hf Hb. unfold astar_solve.
  destruct (decide (start = GOAL)); [done|].
  destruct (manhattan start); [|done]. by apply astar_loop_more.
Qed.

(** Property X7. A larger budget never loses or changes a solution: when
    [astar_solve] returns a move list for some budget, it returns the same
    list for every larger budget. *)
Theorem larger_budget_same_solution fuel start max_expansions larger ms :
  max_expansions ≤ larger →
  astar_solve fuel start max_expansions = Moves ms →
  astar_solve fuel start larger = Moves ms.
Proof. intros Hle. by apply astar_solve_more. Qed.

Lemma larger_budget_same_solution_witness :
  astar_solve 100 [1; 2; 3; 4; 5; 6; 0; 7; 8] 250000 = Moves [7; 8].
Proof.
  apply (larger_budget_same_solution 100 [1; 2; 3; 4; 5; 6; 0; 7; 8] 2).
  - lia.
  - vm_compute. reflexivity.
Defined.

Lemma astar_shortest_any_budget fuel start max_expansions ms :
  Board start → max_expansions < 1000000000 →
  astar_solve fuel start max_expansions = Moves ms →
  replay start ms = Some GOAL ∧
  ∀ ms', replay start ms' = Some GOAL → (length ms ≤ length ms')%nat.
Proof.
  intros Hb Hmax Hms. pose proof (astar_sound _ _ _ _ Hb Hms) as Hr.
  split; [done|].
  pose proof (replay_solvable start ms GOAL Hb Hr) as Hsol. symmetry in Hsol.
  set (b' := Z.max max_expansions 181440).
  set (fuel' := (fuel `max` enough_fuel b')%nat).
  assert (astar_solve fuel' start b' = Moves ms) as Hms'.
  { eapply astar_solve_more; [| |exact Hms]; unfold fuel', b'; lia. }
  destruct (astar_optimal fuel' start b' Hb Hsol) as (ms0 & H0 & _ & Hmin).
  - unfold b'. lia.
  - unfold fuel'. lia.
  - rewrite Hms' in H0. by injection H0 as <-.
Qed.

(** Property X8. Whatever the budget (below the 10**9 that stands for an
    unknown cost), a move list that [astar_solve] returns for a start Board
    is a shortest one: the budget decides whether a solution is returned,
    never how good it is. *)
Theorem any_budget_solution_is_shortest fuel start max_expansions ms :
  Board start → max_expansions < 1000000000 →
  astar_solve fuel start max_expansions = Moves ms →
  replay start ms = Some GOAL ∧
  ∀ ms', replay start ms' = Some GOAL → (length ms ≤ length ms')%nat.
Proof. apply astar_shortest_any_budget. Qed.

Lemma any_budget_solution_is_shortest_witness :
  replay [1; 2; 3; 4; 5; 6; 0; 7; 8] [7; 8] = Some GOAL ∧
  ∀ ms', replay [1; 2; 3; 4; 5; 6; 0; 7; 8] ms' = Some GOAL →
         (length [7; 8] ≤ length ms')%nat.
Proof.
  apply (any_budget_solution_is_shortest 100 [1; 2; 3; 4; 5; 6; 0; 7; 8] 2).
  - apply (bool_decide_unpack _). vm_compute. reflexivity.
  - lia.
  - vm_compute. reflexivity.
Defined.

(** Property X9. The solver never moves a tile twice in a row: in a move
    list that [astar_solve] returns for a start Board, no two consecutive
    moves are equal. *)
Theorem solver_never_moves_a_tile_twice fuel start max_expansions ms :
  Board start → max_expansions < 1000000000 →
  astar_solve fuel start max_expansions = Moves ms →
  ∀ before m after, ms ≠ before ++ m :: m :: after.
Proof.
  intros Hb Hmax Hms before m after ->.
  destruct (astar_shortest_any_budget _ _ _ _ Hb Hmax Hms) as [Hr Hmin].
  rewrite replay_app in Hr.
  destruct (replay start before) as [s|] eqn:Hs; simpl in Hr; [|done].
  destruct (apply_move_by_tile_value s m) as [t|] eqn:Ht; simpl in Hr;
    [|done].
  rewrite (move_back s m t (replay_Board _ _ _ Hb Hs) Ht) in Hr.
  simpl in Hr.
  specialize (Hmin (before ++ after) (replay_trans _ _ _ _ _ Hs Hr)).
  rewrite !length_app in Hmin. simpl in Hmin. lia.
Qed.

Lemma solver_never_moves_a_tile_twice_witness :
  [7; 8] ≠ [7] ++ 8 :: 8 :: [].
Proof.
  apply (solver_never_moves_a_tile_twice 100 [1; 2; 3; 4; 5; 6; 0; 7; 8] 2).
  - apply (bool_decide_unpack _). vm_compute. reflexivity.
  - lia.
  - vm_compute. reflexivity.
Defined.

Lemma step_moves_length start w b st ms :
  sound start st → astar_step w b st = inr (Moves ms) →
  Z.of_nat (length ms) ≤ expansions st.
Proof.
  intros Hs. unfold astar_step.
  destruct (heappop (open_heap st)) as [[[[f g] s] h']|] eqn:Hpop; [|done].
  apply heappop_Some in Hpop as [Hperm _].
  destruct (sound_heap start st Hs f g s) as (g' & Hg' & Hle & Hf).
  { rewrite Hperm. by left. }
  destruct (decide (g ≠ g_cost_get (g_cost st) s)) as [Hstale|Hfresh];
    [done|].
  assert (g_cost st !! s = Some g) as Hg.
  { apply dec_stable in Hfresh. unfold g_cost_get in Hfresh.
    rewrite Hg' in Hfresh. simpl in Hfresh. by subst. }
  destruct (sound_cost start st Hs s g Hg) as (_ & Hg0 & _).
  destruct (decide (s = GOAL)) as [->|Hng].
  - pose proof (walk_spec start st w GOAL g [] Hs Hg) as Hw.
    destruct (walk_parents w (parent st) GOAL []) as [r|]; [|done].
    destruct Hw as (ms' & -> & _ & Hlen). simpl.
    intros [= <-]. rewrite reverse_involutive. lia.
  - destruct (b <? expansions st + 1); [done|].
    destruct (index_of 0 s) as [z|]; [|done].
    by destruct (relax_all s g z (neighbors z) _).
Qed.

Lemma loop_moves_length start fuel w b st ms :
  sound start st → expansions st ≤ Z.max 0 b →
  astar_loop fuel w b st = Moves ms → Z.of_nat (length ms) ≤ Z.max 0 b.
Proof.
  revert st. induction fuel as [|fuel IH]; intros st Hs Hexp; simpl; [done|].
  pose proof (step_spec start w b st Hs Hexp) as Hstep.
  pose proof (step_moves_length start w b st) as Hlen.
  destruct (astar_step w b st) as [st'|[ms'| | |]]; try done.
  - destruct Hstep as (Hs' & Hexp' & _). by apply IH.
  - intros [= <-]. specialize (Hlen ms' Hs eq_refl). lia.
Qed.

Lemma astar_moves_length fuel start max_expansions ms :
  Board start → astar_solve fuel start max_expansions = Moves ms →
  sum_distances 0 start ≤ Z.of_nat (length ms) ≤ Z.max 0 max_expansions.
Proof.
  intros Hb Hms. split.
  - pose proof (astar_sound _ _ _ _ Hb Hms) as Hr.
    pose proof (replay_distance start ms GOAL Hb Hr) as Hd.
    rewrite sum_distances_GOAL in Hd. lia.
  - destruct (decide (start = GOAL)) as [->|Hne].
    + unfold astar_solve in Hms. rewrite decide_True in Hms by done.
      injection Hms as <-. simpl. lia.
    + rewrite astar_solve_unfold in Hms by done.
      eapply (loop_moves_length start); [by apply sound_initial| |exact Hms].
      simpl. lia.
Qed.

(** Property X10. A move list that [astar_solve] returns for a start Board
    has at least [manhattan(start)] moves and at most as many moves as the
    budget allows expansions. *)
Theorem solution_length_within_budget fuel start max_expansions ms :
  Board start → astar_solve fuel start max_expansions = Moves ms →
  ∃ h, manhattan start = Some h ∧
       h ≤ Z.of_nat (length ms) ≤ Z.max 0 max_expansions.
Proof.
  intros Hb Hms. exists (sum_distances 0 start).
  split; [by apply manhattan_Board|by eapply astar_moves_length].
Qed.

Lemma solution_length_within_budget_witness :
  ∃ h, manhattan [1; 2; 3; 4; 5; 6; 0; 7; 8] = Some h ∧
       h ≤ Z.of_nat (length [7; 8]) ≤ Z.max 0 2.
Proof.
  apply (solution_length_within_budget 100 [1; 2; 3; 4; 5; 6; 0; 7; 8] 2).
  - apply (bool_decide_unpack _). vm_compute. reflexivity.
  - vm_compute. reflexivity.
Defined.

(** Property X11. With a budget below [manhattan(start)], and so with every
    budget that is zero or negative, [astar_solve] returns [None] for a
    start Board other than [GOAL], solvable or not. *)
Theorem budget_below_manhattan_returns_no_solution fuel start
    max_expansions h :
  Board start → start ≠ GOAL → manhattan start = Some h →
  max_expansions < h → (enough_fuel max_expansions ≤ fuel)%nat →
  astar_solve fuel start max_expansions = NoSolution.
Proof.
  intros Hb Hne Hh Hlt Hfuel.
  rewrite (manhattan_Board start Hb) in Hh. injection Hh as <-.
  assert (0 < sum_distances 0 start) as Hpos.
  { pose proof (sum_distances_nonneg 0 start).
    destruct (decide (sum_distances 0 start = 0)) as [H0|]; [|lia].
    by apply sum_distances_zero_GOAL in H0. }
  destruct (astar_total fuel start max_expansions Hb Hfuel) as [[ms Hms]|H];
    [|done].
  pose proof (astar_moves_length _ _ _ _ Hb Hms). lia.
Qed.

Lemma budget_below_manhattan_returns_no_solution_witness :
  astar_solve (enough_fuel 1) [1; 2; 3; 4; 5; 6; 0; 7; 8] 1 = NoSolution.
Proof.
  apply (budget_below_manhattan_returns_no_solution (enough_fuel 1)
           [1; 2; 3; 4; 5; 6; 0; 7; 8] 1 2).
  - apply (bool_decide_unpack _). vm_compute. reflexivity.
  - discriminate.
  - vm_compute. reflexivity.
  - lia.
  - apply le_n.
Defined.

(** Property X12. For a start Board, [astar_solve] returns the empty move
    list exactly when the start is [GOAL]; the caller [on_solve] takes the
    empty list for a puzzle that is solved already. *)
Theorem solve_empty_iff_goal fuel start max_expansions :
  Board start →
  (astar_solve fuel start max_expansions = Moves [] ↔ start = GOAL).
Proof.
  intros Hb. split.
  - intros Hms. pose proof (astar_sound _ _ _ _ Hb Hms) as Hr.
    simpl in Hr. by injection Hr.
  - intros ->. unfold astar_solve. by rewrite decide_True.
Qed.

Lemma solve_empty_iff_goal_witness :
  astar_solve 100 [1; 2; 3; 4; 5; 6; 0; 7; 8] 250000 = Moves [] ↔
  [1; 2; 3; 4; 5; 6; 0; 7; 8] = GOAL.
Proof.
  apply (solve_empty_iff_goal 100 [1; 2; 3; 4; 5; 6; 0; 7; 8] 250000).
  apply (bool_decide_unpack _). vm_compute. reflexivity.
Defined.

(** ** The text of a state and its parsing *)

Lemma py_str_tile v :
  0 ≤ v ≤ 8 →
  ∃ c, py_str v = [c] ∧ isdecimal c = true ∧ digit_value c = v.
Proof.
  intros Hv. destruct (range_0_8_cases v Hv) as [->|H].
  { eexists. split_and!; reflexivity. }
  repeat (destruct H as [->|H]; [eexists; split_and!; reflexivity|]).
  subst. eexists. split_and!; reflexivity.
Qed.

Lemma isdecimal_not_space c : isdecimal c = true → isspace c = false.
Proof. destruct c as [[] [] [] [] [] [] [] []]; by vm_compute. Qed.

Lemma join_cons_cons sep (p q : list ascii) rest :
  join sep (p :: q :: rest) = p ++ sep ++ join sep (q :: rest).
Proof. done. Qed.

Lemma join_nil_cons (p : list ascii) rest :
  join [] (p :: rest) = p ++ join [] rest.
Proof. destruct rest; simpl; [by rewrite app_nil_r|done]. Qed.

Lemma split_on_app_token f p r cur :
  Forall (λ c, f c = false) p →
  split_on f (p ++ r) cur = split_on f r (cur ++ p).
Proof.
  intros Hp. revert cur. induction Hp as [|c p Hc _ IH]; intros cur; simpl.
  - by rewrite app_nil_r.
  - rewrite Hc, IH, <- app_assoc. done.
Qed.

Lemma split_on_app_separators f s r :
  Forall (λ c, f c = true) s → split_on f (s ++ r) [] = split_on f r [].
Proof.
  intros Hs. induction Hs as [|c s Hc _ IH]; simpl; [done|].
  by rewrite Hc.
Qed.

Lemma split_on_app_separators_token f s r cur :
  s ≠ [] → Forall (λ c, f c = true) s → cur ≠ [] →
  split_on f (s ++ r) cur = cur :: split_on f r [].
Proof.
  intros Hne Hs Hcur. destruct Hs as [|c s Hc Hs]; [done|].
  simpl. rewrite Hc. destruct cur; [done|].
  by rewrite split_on_app_separators.
Qed.

Lemma split_on_join sep parts :
  sep ≠ [] → Forall (λ c, separator c = true) sep →
  Forall (λ p, p ≠ [] ∧ Forall (λ c, separator c = false) p) parts →
  split_on separator (join sep parts) [] = parts.
Proof.
  intros Hne Hsep Hparts.
  induction Hparts as [|p rest [Hp Hf] Hrest IH]; [done|].
  destruct rest as [|q rest].
  - simpl. rewrite split_on_no_separator by done. simpl.
    by destruct p.
  - rewrite join_cons_cons, split_on_app_token by done.
    rewrite split_on_app_separators_token by done.
    by rewrite IH.
Qed.

Lemma lstrip_id l :
  Forall (λ c, isspace c = false) l → lstrip l = l.
Proof. intros [|c l' Hc _]; simpl; [done|]. by rewrite Hc. Qed.

Lemma rstrip_id l :
  Forall (λ c, isspace c = false) l → rstrip l = l.
Proof.
  induction 1 as [|c l Hc _ IH]; simpl; [done|].
  rewrite IH, Hc. by destruct l.
Qed.

Lemma digits_of_tiles b :
  Forall (λ v, 0 ≤ v ≤ 8) b →
  length (join [] (py_str <$> b)) = length b ∧
  Forall (λ c, isdecimal c = true) (join [] (py_str <$> b)) ∧
  digit_value <$> join [] (py_str <$> b) = b.
Proof.
  induction 1 as [|v b Hv _ (IH1 & IH2 & IH3)]; [done|].
  rewrite fmap_cons, join_nil_cons.
  destruct (py_str_tile v Hv) as (c & -> & Hc & Hd).
  change ([c] ++ join [] (py_str <$> b)) with (c :: join [] (py_str <$> b)).
  split_and!.
  - simpl. by rewrite IH1.
  - by constructor.
  - by rewrite fmap_cons, Hd, IH3.
Qed.

Lemma tokens_of_tiles b :
  Forall (λ v, 0 ≤ v ≤ 8) b →
  Forall (λ p, p ≠ [] ∧ Forall (λ c, separator c = false) p) (py_str <$> b) ∧
  mapM py_int (py_str <$> b) = Some b.
Proof.
  induction 1 as [|v b Hv _ (IH1 & IH2)]; [done|].
  rewrite fmap_cons. destruct (py_str_tile v Hv) as (c & -> & Hc & Hd).
  split.
  - constructor; [|done]. split; [done|]. constructor; [|done].
    by apply isdigit_not_separator, isdecimal_isdigit.
  - cbn [mapM]. rewrite IH2, (py_int_digit c) by (by apply isdecimal_isdigit).
    rewrite Hc, Hd. done.
Qed.

Lemma joined_tiles_parse sep b :
  Board b → Forall (λ c, separator c = true) sep →
  parse_state (join sep (py_str <$> b)) = Parsed b.
Proof.
  intros Hb Hsep. apply parse_state_Parsed.
  pose proof (Board_range b Hb) as Hr.
  destruct sep as [|c sep].
  - left. destruct (digits_of_tiles b Hr) as (Hl & Hf & Hv).
    assert (strip (join [] (py_str <$> b)) = join [] (py_str <$> b)) as ->.
    { unfold strip.
      assert (Forall (λ c, isspace c = false) (join [] (py_str <$> b))) as H.
      { eapply Forall_impl; [exact Hf|]. apply isdecimal_not_space. }
      by rewrite (rstrip_id _ H), (lstrip_id _ H). }
    unfold digits_form. rewrite Hl, Hv, (Board_length b Hb). done.
  - right. destruct (tokens_of_tiles b Hr) as (Hp & Hm).
    unfold tokens_form, tokens_of. rewrite split_on_join by done.
    rewrite length_fmap, (Board_length b Hb). done.
Qed.

(** Property X13. The text that [on_shuffle] writes into the input field
    parses back to the state it was made from: for every Board,
    [parse_state] of the values joined by a blank is that Board; and so is
    [parse_state] of the values joined by any string of whitespace, commas
    and semicolons, the empty string included. *)
Theorem state_text_parses_back b :
  Board b →
  parse_state (state_text b) = Parsed b ∧
  ∀ sep, Forall (λ c, separator c = true) sep →
         parse_state (join sep (py_str <$> b)) = Parsed b.
Proof.
  intros Hb. split.
  - apply joined_tiles_parse; [done|]. by constructor.
  - intros sep. by apply joined_tiles_parse.
Qed.

Lemma state_text_parses_back_witness :
  parse_state (state_text [1; 2; 3; 4; 5; 6; 0; 7; 8])
  = Parsed [1; 2; 3; 4; 5; 6; 0; 7; 8] ∧
  ∀ sep, Forall (λ c, separator c = true) sep →
         parse_state (join sep (py_str <$> [1; 2; 3; 4; 5; 6; 0; 7; 8]))
         = Parsed [1; 2; 3; 4; 5; 6; 0; 7; 8].
Proof.
  apply (state_text_parses_back [1; 2; 3; 4; 5; 6; 0; 7; 8]).
  apply (bool_decide_unpack _). vm_compute. reflexivity.
Defined.

Lemma check_values_not_raised vals : check_values vals ≠ ParseRaised.
Proof. unfold check_values. by destruct (decide _). Qed.

(** Property X14. [parse_state] lets a [ValueError] escape exactly when the
    text without its surrounding whitespace is nine characters that are all
    digits for [isdigit] but not all decimal digits, that is, when one of
    them is a superscript digit. *)
Theorem parse_state_raises_iff text :
  parse_state text = ParseRaised ↔
  length (strip text) = 9%nat ∧
  Forall (λ c, isdigit c = true) (strip text) ∧
  ¬ Forall (λ c, isdecimal c = true) (strip text).
Proof.
  unfold parse_state. destruct (strip text) as [|c t] eqn:Ht.
  { split; [done|]. by intros (Hl & _). }
  set (t' := c :: t) in *.
  destruct (forallb isdigit t' && (length t' =? 9)%nat) eqn:Hb.
  - apply andb_true_iff in Hb as [Hd Hl].
    apply forallb_Forall_true in Hd. apply Nat.eqb_eq in Hl.
    pose proof (mapM_digits t') as Hm.
    destruct (mapM (λ ch, py_int [ch]) t') as [vs|].
    + split; [by intros H%check_values_not_raised|].
      intros (_ & _ & Hn). exfalso. apply Hn.
      by destruct (Hm vs Hd) as [[Hf _] _].
    + split; [|done]. intros _. split_and!; [done|done|].
      intros Hf. destruct (Hm (digit_value <$> t') Hd) as [_ H].
      by specialize (H (conj Hf eq_refl)).
  - split.
    + destruct (negb _); [done|].
      destruct (mapM py_int _); [|done].
      by intros H%check_values_not_raised.
    + intros (Hl & Hd & _). apply andb_false_iff in Hb as [Hb|Hb].
      * apply not_true_iff_false in Hb. exfalso.
        by apply Hb, forallb_Forall_true.
      * apply Nat.eqb_neq in Hb. done.
Qed.

Lemma lstrip_app_space w l :
  Forall (λ c, isspace c = true) w → lstrip (w ++ l) = lstrip l.
Proof. induction 1 as [|c w Hc _ IH]; simpl; [done|]. by rewrite Hc. Qed.

Lemma rstrip_space w : Forall (λ c, isspace c = true) w → rstrip w = [].
Proof. induction 1 as [|c w Hc _ IH]; simpl; [done|]. by rewrite IH, Hc. Qed.

Lemma rstrip_app l w :
  rstrip (l ++ w) = match rstrip w with [] => rstrip l | w' => l ++ w' end.
Proof.
  induction l as [|c l IH]; simpl.
  - by destruct (rstrip w).
  - rewrite IH. destruct (rstrip w) as [|c' w']; [done|].
    by destruct l.
Qed.

Lemma lstrip_space w : Forall (λ c, isspace c = true) w → lstrip w = [].
Proof. induction 1 as [|c w Hc _ IH]; simpl; [done|]. by rewrite Hc. Qed.

Lemma strip_surrounded w1 text w2 :
  Forall (λ c, isspace c = true) w1 → Forall (λ c, isspace c = true) w2 →
  strip (w1 ++ text ++ w2) = strip text.
Proof.
  intros H1 H2. unfold strip.
  rewrite app_assoc, rstrip_app, (rstrip_space w2 H2), rstrip_app.
  destruct (rstrip text) as [|c t].
  - by rewrite (rstrip_space w1 H1).
  - by apply lstrip_app_space.
Qed.

Lemma parse_state_strip t1 t2 :
  strip t1 = strip t2 → parse_state t1 = parse_state t2.
Proof. unfold parse_state. by intros ->. Qed.

(** Property X15. Whitespace around the text does not count: [parse_state]
    gives the same result, a Board, [None] or the exception, for a text and
    for the text with whitespace put before and after it. A text of
    whitespace only, and so the empty text, gives [None]. *)
Theorem parse_state_ignores_surrounding_whitespace w1 text w2 :
  Forall (λ c, isspace c = true) w1 → Forall (λ c, isspace c = true) w2 →
  parse_state (w1 ++ text ++ w2) = parse_state text ∧
  parse_state w1 = ParseNone.
Proof.
  intros H1 H2. split.
  - by apply parse_state_strip, strip_surrounded.
  - unfold parse_state, strip. by rewrite (rstrip_space w1 H1).
Qed.

Lemma parse_state_ignores_surrounding_whitespace_witness :
  parse_state (str "  " ++ str "1,2,3,4,5,6,7,8,0" ++ str " ")
  = parse_state (str "1,2,3,4,5,6,7,8,0") ∧
  parse_state (str "  ") = ParseNone.
Proof.
  apply (parse_state_ignores_surrounding_whitespace
           (str "  ") (str "1,2,3,4,5,6,7,8,0") (str " ")).
  - apply (bool_decide_unpack _). vm_compute. reflexivity.
  - apply (bool_decide_unpack _). vm_compute. reflexivity.
Defined.

(** ** Shuffling *)

Lemma list_remove_elem x l y : y ∈ list_remove x l → y ∈ l.
Proof.
  induction l as [|a l IH]; simpl; [done|].
  destruct (decide (a = x)); [by right|].
  intros [->|H]%elem_of_cons; [by left|]. right. by apply IH.
Qed.

Lemma list_remove_NoDup x l y : NoDup l → y ∈ list_remove x l → y ≠ x.
Proof.
  induction 1 as [|a l Ha _ IH]; simpl; [by intros ?%elem_of_nil|].
  destruct (decide (a = x)) as [->|Hne].
  - intros Hy ->. done.
  - intros [->|Hy]%elem_of_cons; [done|]. by apply IH.
Qed.

Lemma list_remove_length x l :
  x ∈ l → length l = S (length (list_remove x l)).
Proof.
  induction l as [|a l IH]; simpl; [by intros ?%elem_of_nil|].
  destruct (decide (a = x)) as [->|Hne]; [done|].
  intros [->|Hx]%elem_of_cons; [done|]. simpl. by rewrite <- IH.
Qed.

Lemma random_choice_elem pick l :
  l ≠ [] → ∃ x, random_choice pick l = Some x ∧ x ∈ l.
Proof.
  intros Hne. unfold random_choice.
  destruct (lookup_lt_is_Some_2 l (pick mod length l)) as [x Hx].
  { apply Nat.mod_upper_bound. by destruct l. }
  exists x. split; [by destruct l|]. by eapply list_elem_of_lookup_2.
Qed.

Lemma swap_cells_moved s z nb v t :
  s !! nb = Some v → z ≠ nb → swap_cells s z nb = Some t → t !! z = Some v.
Proof.
  intros Hv Hne. unfold swap_cells. rewrite Hv. simpl.
  destruct (s !! z) as [u|] eqn:Hz; simpl; [|done]. intros [= <-].
  rewrite list_lookup_insert_ne by done.
  apply list_lookup_insert_eq. by eapply lookup_lt_Some.
Qed.

Lemma no_repeat_snoc (ms : list Z) m :
  (∀ before x after, ms ≠ before ++ x :: x :: after) →
  last ms ≠ Some m →
  ∀ before x after, ms ++ [m] ≠ before ++ x :: x :: after.
Proof.
  intros Hms Hlast before x after.
  destruct after as [|a after _] using rev_ind.
  - intros H. change (before ++ [x; x]) with (before ++ [x] ++ [x]) in H.
    rewrite app_assoc in H. apply app_inj_tail in H as [-> ->].
    by rewrite last_snoc in Hlast.
  - intros H.
    change (before ++ x :: x :: after ++ [a])
      with (before ++ [x; x] ++ after ++ [a]) in H.
    rewrite !app_assoc in H. apply app_inj_tail in H as [H _].
    apply (Hms before x after). by rewrite H, <- !app_assoc.
Qed.

Lemma shuffle_step_spec pick ms st :
  shuffled ms st →
  ∃ st' m, shuffle_step pick st = Some st' ∧ shuffled (ms ++ [m]) st'.
Proof.
  intros [Hr Hz Hl Hn].
  pose proof (replay_Board GOAL ms _ Board_GOAL Hr) as Hb.
  destruct (Board_index_blank _ Hb) as (z & Hz' & Hz9 & Hlz).
  rewrite Hz in Hz'. injection Hz' as <-.
  destruct (neighbors_shape (sh_zero st) Hz9)
    as (Hnd & Hlen).
  set (nbs := match sh_last st with
              | Some l =>
                  if decide (l ∈ neighbors (sh_zero st)) then
                    if (1 <? length (neighbors (sh_zero st)))%nat
                    then list_remove l (neighbors (sh_zero st))
                    else neighbors (sh_zero st)
                  else neighbors (sh_zero st)
              | None => neighbors (sh_zero st)
              end).
  assert (nbs ≠ [] ∧ ∀ x, x ∈ nbs →
            x ∈ neighbors (sh_zero st) ∧ sh_last st ≠ Some x)
    as [Hne Hsub].
  { unfold nbs. destruct (sh_last st) as [l|].
    - destruct Hl as [Hin _]. rewrite decide_True by done.
      destruct (Nat.ltb_spec 1 (length (neighbors (sh_zero st)))); [|lia].
      split.
      + pose proof (list_remove_length l _ Hin) as E. intros E'.
        rewrite E' in E. simpl in E. lia.
      + intros x Hx. split; [by eapply list_remove_elem|].
        intros [= ->]. by eapply list_remove_NoDup.
    - split; [|done]. intros E. rewrite E in Hlen. simpl in Hlen. lia. }
  destruct (random_choice_elem pick nbs Hne) as (nxt & Hnxt & Hin).
  destruct (Hsub nxt Hin) as [Hnb Hnl].
  destruct (neighbor_move _ _ nxt Hb Hz Hnb) as (v & t & Hv & Ht & Hm).
  destruct (neighbors_sym _ _ Hz9 Hnb) as (_ & Hdiff' & Hsym).
  assert (sh_zero st ≠ nxt) as Hdiff by done.
  destruct (swap_cells_back _ _ _ _ Hlz Hdiff Ht) as [_ Ht0].
  pose proof (move_Board _ _ _ Hb Hm) as Hbt.
  exists (ShuffleState t nxt (Some (sh_zero st))), v. split.
  { unfold shuffle_step. fold nbs. rewrite Hnxt. simpl. by rewrite Ht. }
  split; simpl.
  - by eapply replay_snoc.
  - by apply index_of_NoDup; [apply Board_NoDup|].
  - split; [done|]. exists v. split; [apply last_snoc|].
    by eapply swap_cells_moved.
  - apply no_repeat_snoc; [done|].
    destruct (sh_last st) as [l|].
    + destruct Hl as (_ & m & Hm' & Hlm). rewrite Hm'. intros [= ->].
      apply Hnl. f_equal.
      by apply (NoDup_lookup _ _ _ v (Board_NoDup _ Hb)).
    + by rewrite Hl.
Qed.

Lemma shuffle_loop_spec rand i n ms st :
  shuffled ms st →
  ∃ st' ms', shuffle_loop rand i n st = Some st' ∧
             shuffled (ms ++ ms') st' ∧ length ms' = n.
Proof.
  revert i ms st. induction n as [|n IH]; intros i ms st Hs; simpl.
  - exists st, []. by rewrite app_nil_r.
  - destruct (shuffle_step_spec (rand i) ms st Hs) as (st1 & m & -> & Hs1).
    simpl. destruct (IH (S i) _ _ Hs1) as (st' & ms' & -> & Hs' & Hlen).
    exists st', (m :: ms'). split; [done|]. split.
    + by rewrite <- app_assoc in Hs'.
    + simpl. by rewrite Hlen.
Qed.

Lemma on_shuffle_spec rand :
  ∃ st ms, on_shuffle rand = Some st ∧ shuffled ms st ∧ length ms = 80%nat.
Proof.
  assert (shuffled [] (ShuffleState GOAL 8 None)) as Hs.
  { split; simpl; try done. intros before m after H.
    by destruct before. }
  destruct (shuffle_loop_spec rand 0 80 [] _ Hs) as (st & ms & H & Hs' & Hl).
  exists st, ms. done.
Qed.

(** Property X16. Whatever numbers the random generator gives,
    [on_shuffle] ends without an exception, in a solvable Board: the state
    is reached from [GOAL] by exactly 80 legal moves of which no two
    consecutive ones move the same tile, and [zero_idx] is the position of
    its blank. *)
Theorem shuffle_yields_solvable_board rand :
  ∃ st ms, on_shuffle rand = Some st ∧
    Board (sh_state st) ∧ is_solvable_3x3 (sh_state st) = true ∧
    index_of 0 (sh_state st) = Some (sh_zero st) ∧
    length ms = 80%nat ∧ replay GOAL ms = Some (sh_state st) ∧
    ∀ before m after, ms ≠ before ++ m :: m :: after.
Proof.
  destruct (on_shuffle_spec rand) as (st & ms & H & [Hr Hz _ Hn] & Hl).
  exists st, ms. split_and!; try done.
  - by eapply replay_Board; [apply Board_GOAL|].
  - by rewrite (replay_solvable GOAL ms _ Board_GOAL Hr).
Qed.

(** Property X17. Shuffling and solving fit together: on the state that
    [on_shuffle] leaves, [astar_solve] with the default budget returns a
    move list, never [None]; the list leads back to [GOAL] and has at most
    80 moves. *)
Theorem shuffled_board_is_solved_within_80_moves rand fuel :
  (enough_fuel default_max_expansions ≤ fuel)%nat →
  ∃ st sol, on_shuffle rand = Some st ∧
    astar_solve fuel (sh_state st) default_max_expansions = Moves sol ∧
    replay (sh_state st) sol = Some GOAL ∧ (length sol ≤ 80)%nat.
Proof.
  intros Hfuel.
  destruct (on_shuffle_spec rand) as (st & ms & H & [Hr Hz _ Hn] & Hl).
  pose proof (replay_Board GOAL ms _ Board_GOAL Hr) as Hb.
  pose proof (replay_solvable GOAL ms _ Board_GOAL Hr) as Hsol.
  destruct (astar_optimal fuel (sh_state st) default_max_expansions Hb)
    as (sol & Hsolve & Hgoal & Hmin); [done|done|done|].
  exists st, sol. split_and!; try done.
  pose proof (replay_back GOAL ms _ Board_GOAL Hr) as Hback.
  specialize (Hmin _ Hback). rewrite length_reverse in Hmin. lia.
Qed.

Lemma shuffled_board_is_solved_within_80_moves_witness :
  ∃ st sol, on_shuffle (λ i, i) = Some st ∧
    astar_solve (enough_fuel default_max_expansions) (sh_state st)
      default_max_expansions = Moves sol ∧
    replay (sh_state st) sol = Some GOAL ∧ (length sol ≤ 80)%nat.
Proof.
  apply (shuffled_board_is_solved_within_80_moves (λ i, i)
           (enough_fuel default_max_expansions)).
  apply le_n.
Defined.

(** ** The layout of the board *)

Lemma divmod_3 (i : nat) :
  (i < 9)%nat →
  ∃ r c : nat, (i / 3)%nat = r ∧ (i mod 3)%nat = c ∧
               i = (3 * r + c)%nat ∧ (r < 3)%nat ∧ (c < 3)%nat.
Proof.
  intros Hi. exists (i / 3)%nat, (i mod 3)%nat.
  pose proof (Nat.div_mod_eq i 3) as E.
  pose proof (Nat.mod_upper_bound i 3) as Hc.
  split_and!; [done|done|done| |lia].
  revert E Hc. generalize (i / 3)%nat (i mod 3)%nat. intros r c E Hc. lia.
Qed.

Lemma cell_rect_within i :
  (i < 9)%nat →
  rect_within (cell_rect i)
    (PAD, PAD, board_side - 2 * PAD, board_side - 2 * PAD).
Proof.
  intros Hi. destruct (divmod_3 i Hi) as (r & c & Hr & Hc & _ & Hr3 & Hc3).
  unfold cell_rect, rect_within, board_side, PAD, TILE, GAP.
  rewrite Hr, Hc. lia.
Qed.

Lemma cell_rects_apart i j :
  (i < 9)%nat → (j < 9)%nat → i ≠ j →
  rects_apart GAP (cell_rect i) (cell_rect j).
Proof.
  intros Hi Hj Hne.
  destruct (divmod_3 i Hi) as (r & c & Hr & Hc & Ei & Hr3 & Hc3).
  destruct (divmod_3 j Hj) as (r' & c' & Hr' & Hc' & Ej & Hr3' & Hc3').
  unfold cell_rect, rects_apart, PAD, TILE, GAP.
  rewrite Hr, Hc, Hr', Hc'. lia.
Qed.

(** Property X18. The nine cells of [cell_rect] lie inside the board frame,
    [PAD] away from its border; two different cells have at least [GAP]
    between them; and the cells that [neighbors] lists for a cell are the
    ones drawn right beside, above or below it. *)
Theorem cells_lie_in_frame_and_apart i j :
  (i < 9)%nat → (j < 9)%nat →
  rect_within (cell_rect i)
    (PAD, PAD, board_side - 2 * PAD, board_side - 2 * PAD) ∧
  (i ≠ j → rects_apart GAP (cell_rect i) (cell_rect j)) ∧
  (j ∈ neighbors i ↔
   let '(x, y, _, _) := cell_rect i in
   let '(x', y', _, _) := cell_rect j in
   (y = y' ∧ Z.abs (x - x') = TILE + GAP) ∨
   (x = x' ∧ Z.abs (y - y') = TILE + GAP)).
Proof.
  intros Hi Hj. split; [by apply cell_rect_within|].
  split; [by apply cell_rects_apart|].
  rewrite (neighbors_grid i j Hi).
  destruct (divmod_3 i Hi) as (r & c & Hr & Hc & Ei & Hr3 & Hc3).
  destruct (divmod_3 j Hj) as (r' & c' & Hr' & Hc' & Ej & Hr3' & Hc3').
  unfold cell_rect, grid_distance, PAD, TILE, GAP.
  rewrite Hr, Hc, Hr', Hc'. lia.
Qed.

Lemma cells_lie_in_frame_and_apart_witness :
  rect_within (cell_rect 4)
    (PAD, PAD, board_side - 2 * PAD, board_side - 2 * PAD) ∧
  (4%nat ≠ 5%nat → rects_apart GAP (cell_rect 4) (cell_rect 5)) ∧
  (5%nat ∈ neighbors 4 ↔
   let '(x, y, _, _) := cell_rect 4 in
   let '(x', y', _, _) := cell_rect 5 in
   (y = y' ∧ Z.abs (x - x') = TILE + GAP) ∨
   (x = x' ∧ Z.abs (y - y') = TILE + GAP)).
Proof. apply (cells_lie_in_frame_and_apart 4 5); lia. Defined.

(** Property X19. [idx_to_rc] numbers the rows and the columns from 1: it
    returns [(r, c)] exactly for the position [3 * (r - 1) + (c - 1)] with
    a column [c] in 1..3, so different positions get different pairs. *)
Theorem idx_to_rc_numbers_rows_and_columns idx r c :
  idx_to_rc idx = (r, c) ↔
  1 ≤ c ≤ 3 ∧ Z.of_nat idx = 3 * (r - 1) + (c - 1).
Proof.
  unfold idx_to_rc. rewrite Nat2Z.inj_div, Nat2Z.inj_mod.
  change (Z.of_nat 3) with 3. split.
  - intros [= <- <-]. Z.to_euclidean_division_equations. lia.
  - intros [Hc E]. f_equal; Z.to_euclidean_division_equations; lia.
Qed.

(** ** The picture pieces and the tiles on the board *)

Lemma sync_from_spec idx state g0 :
  NoDup state → Forall (λ v, 0 ≤ v ≤ 8) state →
  ∃ g, sync_from idx state g0 = Some g ∧
       ∀ v, g !! v = match index_of v state with
                     | Some i =>
                         if decide (v = 0) then g0 !! v
                         else Some (cell_rect (idx + i))
                     | None => g0 !! v
                     end.
Proof.
  intros Hnd Hr. revert idx g0.
  induction Hr as [|a rest Ha _ IH]; intros idx g0.
  { exists g0. done. }
  apply NoDup_cons in Hnd as [Hnotin Hnd]. specialize (IH Hnd).
  cbn [sync_from]. destruct (decide (a = 0)) as [->|Hne].
  - destruct (IH (S idx) g0) as (g & -> & Hg). exists g. split; [done|].
    intros v. rewrite (Hg v). cbn [index_of].
    destruct (decide (0 = v)) as [<-|Hv].
    + rewrite decide_True by done.
      destruct (index_of 0 rest) as [i|] eqn:Hi; [|done].
      by rewrite decide_True.
    + destruct (index_of v rest) as [i|]; simpl; [|done].
      by replace (idx + S i)%nat with (S idx + i)%nat by lia.
  - rewrite decide_True by lia.
    destruct (IH (S idx) (<[a := cell_rect idx]> g0)) as (g & -> & Hg).
    exists g. split; [done|]. intros v. rewrite (Hg v). cbn [index_of].
    destruct (decide (a = v)) as [<-|Hv].
    + destruct (index_of a rest) as [i|] eqn:Hi.
      { exfalso. apply Hnotin. eapply list_elem_of_lookup_2.
        by apply index_of_Some. }
      rewrite lookup_insert_eq, decide_False by done.
      by rewrite Nat.add_0_r.
    + rewrite lookup_insert_ne by done.
      destruct (index_of v rest) as [i|]; simpl; [|done].
      by replace (idx + S i)%nat with (S idx + i)%nat by lia.
Qed.

Lemma sync_Board state g0 :
  Board state →
  ∃ g, sync_tiles_to_state state g0 = Some g ∧
       ∀ v, g !! v = if decide (1 ≤ v ≤ 8)
                     then cell_rect <$> index_of v state else g0 !! v.
Proof.
  intros Hb.
  destruct (sync_from_spec 0 state g0 (Board_NoDup _ Hb) (Board_range _ Hb))
    as (g & Hg & Hl).
  exists g. split; [done|]. intros v. rewrite (Hl v).
  destruct (decide (1 ≤ v ≤ 8)) as [Hv|Hv].
  - destruct (index_of_is_Some v state) as [i Hi].
    { apply (Board_elem state v Hb). lia. }
    rewrite Hi. simpl. by rewrite decide_False by lia.
  - destruct (index_of v state) as [i|] eqn:Hi; [|done].
    rewrite decide_True; [done|].
    assert (0 ≤ v ≤ 8); [|lia]. apply (Board_elem state v Hb).
    eapply list_elem_of_lookup_2. by apply index_of_Some.
Qed.

Lemma index_of_lt v (l : list Z) i : index_of v l = Some i → (i < length l)%nat.
Proof. intros H. eapply lookup_lt_Some. by apply index_of_Some. Qed.

Lemma index_of_inj v w (l : list Z) i :
  index_of v l = Some i → index_of w l = Some i → v = w.
Proof.
  intros Hv Hw. apply index_of_Some in Hv, Hw. congruence.
Qed.

(** Property X20. Without animation, [_sync_tiles_to_state] on a Board
    raises no exception and puts the button of every tile on the cell where
    the tile stands in the state, whatever the geometry was before; no two
    buttons overlap, and the cell of the blank stays free. *)
Theorem sync_puts_every_tile_on_its_cell state g0 :
  Board state →
  ∃ g, sync_tiles_to_state state g0 = Some g ∧
    (∀ v, 1 ≤ v ≤ 8 →
          ∃ idx, index_of v state = Some idx ∧ (idx < 9)%nat ∧
                 g !! v = Some (cell_rect idx)) ∧
    (∀ v w rv rw, 1 ≤ v ≤ 8 → 1 ≤ w ≤ 8 → v ≠ w →
                  g !! v = Some rv → g !! w = Some rw →
                  rects_apart GAP rv rw) ∧
    (∀ z v rv, index_of 0 state = Some z → 1 ≤ v ≤ 8 → g !! v = Some rv →
               rects_apart GAP rv (cell_rect z)).
Proof.
  intros Hb. destruct (sync_Board state g0 Hb) as (g & Hg & Hl).
  exists g. split; [done|].
  assert (∀ v, 1 ≤ v ≤ 8 →
            ∃ idx, index_of v state = Some idx ∧ (idx < 9)%nat ∧
                   g !! v = Some (cell_rect idx)) as Hcell.
  { intros v Hv. rewrite (Hl v), decide_True by done.
    destruct (index_of_is_Some v state) as [i Hi].
    { apply (Board_elem state v Hb). lia. }
    exists i. rewrite Hi. split; [done|]. split; [|done].
    rewrite <- (Board_length state Hb). by eapply index_of_lt. }
  split; [done|]. split.
  - intros v w rv rw Hv Hw Hne Hgv Hgw.
    destruct (Hcell v Hv) as (i & Hi & Hi9 & Hgi).
    destruct (Hcell w Hw) as (j & Hj & Hj9 & Hgj).
    rewrite Hgi in Hgv. rewrite Hgj in Hgw.
    injection Hgv as <-. injection Hgw as <-.
    apply cell_rects_apart; [done|done|]. intros ->.
    apply Hne. by eapply index_of_inj.
  - intros z v rv Hz Hv Hgv.
    destruct (Hcell v Hv) as (i & Hi & Hi9 & Hgi).
    rewrite Hgi in Hgv. injection Hgv as <-.
    apply cell_rects_apart; [done| |].
    + rewrite <- (Board_length state Hb). by eapply index_of_lt.
    + intros ->. assert (v = 0) by (by eapply index_of_inj). lia.
Qed.

Lemma sync_puts_every_tile_on_its_cell_witness :
  ∃ g, sync_tiles_to_state [1; 2; 3; 4; 5; 6; 0; 7; 8] ∅ = Some g ∧
    (∀ v, 1 ≤ v ≤ 8 →
          ∃ idx, index_of v [1; 2; 3; 4; 5; 6; 0; 7; 8] = Some idx ∧
                 (idx < 9)%nat ∧ g !! v = Some (cell_rect idx)) ∧
    (∀ v w rv rw, 1 ≤ v ≤ 8 → 1 ≤ w ≤ 8 → v ≠ w →
                  g !! v = Some rv → g !! w = Some rw →
                  rects_apart GAP rv rw) ∧
    (∀ z v rv, index_of 0 [1; 2; 3; 4; 5; 6; 0; 7; 8] = Some z →
               1 ≤ v ≤ 8 → g !! v = Some rv →
               rects_apart GAP rv (cell_rect z)).
Proof.
  apply (sync_puts_every_tile_on_its_cell [1; 2; 3; 4; 5; 6; 0; 7; 8] ∅).
  apply (bool_decide_unpack _). vm_compute. reflexivity.
Defined.

Lemma slice_from_spec idx goal images :
  NoDup goal →
  ∀ v, slice_from idx goal images !! v
       = match index_of v goal with
         | Some i =>
             if decide (v = 0) then images !! v
             else Some (Z.of_nat ((idx + i) mod 3) * (TILE + GAP),
                        Z.of_nat ((idx + i) / 3) * (TILE + GAP), TILE, TILE)
         | None => images !! v
         end.
Proof.
  intros Hnd. revert idx images.
  induction Hnd as [|a rest Hnotin _ IH]; intros idx images v; [done|].
  cbn [slice_from index_of]. destruct (decide (a = 0)) as [->|Hne].
  - rewrite IH. destruct (decide (0 = v)) as [<-|Hv].
    + rewrite decide_True by done.
      destruct (index_of 0 rest) as [i|]; [|done]. by rewrite decide_True.
    + destruct (index_of v rest) as [i|]; simpl; [|done].
      by replace (idx + S i)%nat with (S idx + i)%nat by lia.
  - rewrite IH. destruct (decide (a = v)) as [<-|Hv].
    + destruct (index_of a rest) as [i|] eqn:Hi.
      { exfalso. apply Hnotin. eapply list_elem_of_lookup_2.
        by apply index_of_Some. }
      rewrite lookup_insert_eq, decide_False by done.
      by rewrite Nat.add_0_r.
    + rewrite lookup_insert_ne by done.
      destruct (index_of v rest) as [i|]; simpl; [|done].
      by replace (idx + S i)%nat with (S idx + i)%nat by lia.
Qed.

(** Property X21. [_slice_image_into_tiles] cuts a piece for each of the
    tiles 1..8 and for no other value, the blank included. The piece of a
    tile lies inside the scaled picture and is the part of the picture
    that is under the tile when the puzzle is solved: the cell of the tile
    in [GOAL], seen from the corner of the picture. *)
Theorem tile_slices_are_the_goal_cells v :
  (tile_slices !! v = None ↔ ¬ (1 ≤ v ≤ 8)) ∧
  ∀ x y w h, tile_slices !! v = Some (x, y, w, h) →
    rect_within (x, y, w, h) (0, 0, board_inner_side, board_inner_side) ∧
    ∃ idx, GOAL_POS v = Some idx ∧
           cell_rect idx = (x + PAD, y + PAD, w, h).
Proof.
  unfold tile_slices. rewrite (slice_from_spec 0 GOAL ∅ (Board_NoDup _ Board_GOAL)).
  fold (GOAL_POS v). rewrite lookup_empty.
  destruct (decide (1 ≤ v ≤ 8)) as [Hv|Hv].
  - rewrite (GOAL_POS_tile v Hv), decide_False by lia.
    rewrite !Nat.add_0_l.
    assert (Z.to_nat (v - 1) < 9)%nat as Hi by lia.
    destruct (divmod_3 _ Hi) as (r & c & Hr & Hc & _ & Hr3 & Hc3).
    rewrite Hr, Hc.
    split; [split; [done|by intros H]|].
    intros x y w h [= <- <- <- <-]. split.
    + unfold rect_within, board_inner_side, TILE, GAP. lia.
    + eexists. split; [done|]. unfold cell_rect. rewrite Hr, Hc.
      by rewrite !(Z.add_comm PAD).
  - assert (match GOAL_POS v with
            | Some _ => if decide (v = 0) then None else Some (0, 0, 0, 0)
            | None => @None (Z * Z * Z * Z)
            end = None) as Hn.
    { destruct (decide (v = 0)) as [->|Hne]; [done|].
      destruct (GOAL_POS_None v) as [_ H]. rewrite H; [done|lia]. }
    destruct (GOAL_POS v) as [i|] eqn:Hg.
    + destruct (decide (v = 0)); [|done]. split; [done|]. by intros.
    + split; [done|]. by intros.
Qed.

(** Property X22. The square that [_slice_image_into_tiles] cuts from a
    picture has the shorter side of the picture as its side, lies inside
    the picture, and is centred: the margins on opposite sides differ by
    at most one pixel. *)
Theorem square_crop_is_centred width height :
  0 ≤ width → 0 ≤ height →
  ∃ x0 y0 side, square_crop width height = (x0, y0, side, side) ∧
    side = Z.min width height ∧
    rect_within (x0, y0, side, side) (0, 0, width, height) ∧
    0 ≤ (width - side - x0) - x0 ≤ 1 ∧
    0 ≤ (height - side - y0) - y0 ≤ 1.
Proof.
  intros Hw Hh. unfold square_crop, rect_within.
  eexists _, _, _. split; [reflexivity|].
  split; [done|]. Z.to_euclidean_division_equations. lia.
Qed.

Lemma square_crop_is_centred_witness :
  ∃ x0 y0 side, square_crop 101 50 = (x0, y0, side, side) ∧
    side = Z.min 101 50 ∧
    rect_within (x0, y0, side, side) (0, 0, 101, 50) ∧
    0 ≤ (101 - side - x0) - x0 ≤ 1 ∧
    0 ≤ (50 - side - y0) - y0 ≤ 1.
Proof. apply (square_crop_is_centred 101 50); lia. Defined.
